(** * nytl dense matrix operations (nytl/bits/mat.inl)

    A shallow embedding of the matrix algorithms of [nytl/bits/mat.inl]:
    [swapRow], [identityMat], [pivot], [luDecomposition], [diagonalMult],
    [det], [refMat], [analyzeRefMat], [rrefMat] and the matrix product.

    The C++ functions are templates over the dimensions [R], [C], [D] and the
    scalar type [P].  The dimensions are explicit [nat] arguments here, a
    matrix is the sequence of its rows ([m[r][c]] is [get m r c]) and the
    scalar type is any type carrying the operations of the class [Scalar].
    In-place mutation is explicit state passing: a function that mutates its
    argument returns the new matrix.  The loops of [pivot] and of
    [luDecomposition] keep their indices below the dimensions; those of
    [refMat] and [rrefMat] do not, and their reads are checked.

    The general results hold for every scalar type, some under the laws they
    name.  The matrices of the tests (docs/tests/mat.cpp) are evaluated over
    [xq], the exact rationals extended by the infinities and NaN, which
    leaves rounding and overflow aside, and over [double] itself, the
    binary64 numbers, where rounding decides. *)

From Stdlib Require Import Bool ZArith QArith Qcanon Lia.
From Stdlib Require Import PrimFloat.
From mathcomp Require Import ssreflect ssrfun ssrbool eqtype ssrnat seq.
From mathcomp Require Import choice fintype bigop fingroup perm.

Close Scope Qc_scope.
Close Scope Q_scope.
Close Scope Z_scope.

Set Implicit Arguments.
Unset Strict Implicit.
Unset Printing Implicit Defensive.

(** ** Scalars *)

(** The operations the templates use on their precision type [P]. *)
Class Scalar (P : Type) := {
  s0 : P;                       (* the literal 0 *)
  s1 : P;                       (* the literal 1 *)
  sadd : P -> P -> P;           (* x + y *)
  ssub : P -> P -> P;           (* x - y *)
  smul : P -> P -> P;           (* x * y *)
  sdiv : P -> P -> P;           (* x / y *)
  abs_gt : P -> P -> bool;      (* std::abs(x) > std::abs(y) *)
  eq0 : P -> bool;              (* x == 0, and x != 0 is its negation *)
  of_int : Z -> P               (* conversion of an int *)
}.

(** ** Matrices *)

Section Mat.

Context {P : Type} {SP : Scalar P}.

Definition vec := seq P.
Definition mat := seq vec.

(** [m[r][c]] *)
Definition get (m : mat) (r c : nat) : P := nth s0 (nth [::] m r) c.

(** [m[r][c] = v] *)
Definition put (m : mat) (r c : nat) (v : P) : mat :=
  set_nth [::] m r (set_nth s0 (nth [::] m r) c v).

(** A matrix object whose entries all hold [v], as [fill(v)] leaves it. *)
Definition fill (R C : nat) (v : P) : mat := nseq R (nseq C v).

(** [swapRow(m, a, b)] *)
Definition swapRow (C : nat) (m : mat) (a b : nat) : mat :=
  foldl (fun m i =>
           let x := get m a i in
           let y := get m b i in
           put (put m a i y) b i x)
        m (iota 0 C).

(** [identityMat<D, P>()] *)
Definition identityMat (D : nat) : mat :=
  foldl (fun ret i => put ret i i s1) (fill D D s0) (iota 0 D).

(** The inner loop of [pivot]: the row [maxR] chosen for column [c]. *)
Definition pivot_scan (R : nat) (m : mat) (c : nat) : nat :=
  foldl (fun maxR r => if abs_gt (get m r c) (get m maxR c) then r else maxR)
        c (iota c (R - c)).

(** One iteration of the outer loop of [pivot], on the state [(m, ret)]. *)
Definition pivot_step (R C : nat) (st : mat * Z) (c : nat) : mat * Z :=
  let maxR := pivot_scan R st.1 c in
  if maxR != c then (swapRow C st.1 c maxR, (st.2 * -1)%Z) else st.

(** [pivot(m)]: the matrix as it is left, and the returned sign. *)
Definition pivot (R C : nat) (m : mat) : mat * Z :=
  foldl (pivot_step R C) (m, 1%Z) (iota 0 C).

(** The accumulation [vsum += lu[1][k][c] * lu[0][r][k]] for [k < n]. *)
Definition lu_sum (L U : mat) (r c n : nat) : P :=
  foldl (fun vsum k => sadd vsum (smul (get U k c) (get L r k)))
        s0 (iota 0 n).

(** The body of the inner loop of [luDecomposition], on [(lu[0], lu[1])]. *)
Definition lu_cell (m : mat) (lu : mat * mat) (r c : nat) : mat * mat :=
  if r <= c
  then (lu.1, put lu.2 r c (ssub (get m r c) (lu_sum lu.1 lu.2 r c r)))
  else (put lu.1 r c
            (sdiv (ssub (get m r c) (lu_sum lu.1 lu.2 r c c)) (get lu.2 c c)),
        lu.2).

Definition lu_row (D : nat) (m : mat) (lu : mat * mat) (r : nat) : mat * mat :=
  foldl (fun lu c => lu_cell m lu r c) lu (iota 0 D).

(** [luDecomposition(m)]: the pair [(lu[0], lu[1])], that is [(L, U)]. *)
Definition luDecomposition (D : nat) (m : mat) : mat * mat :=
  foldl (lu_row D m) (identityMat D, fill D D s0) (iota 0 D).

(** [diagonalMult(m)] *)
Definition diagonalMult (D : nat) (m : mat) : P :=
  foldl (fun ret i => smul ret (get m i i)) s1 (iota 0 D).

(** [det(m)] *)
Definition det (D : nat) (m : mat) : P :=
  let cpy := pivot D D m in
  let luMats := luDecomposition D cpy.1 in
  smul (smul (diagonalMult D luMats.1) (diagonalMult D luMats.2))
       (of_int cpy.2).

(** [analyzeRefMat(m)] *)
Definition analyzeRefMat (R C : nat) (m : mat) : nat := 0.

(** Modelled from the spec: [weight] of the vec header, which is not part of
    the sources; the matrix product uses it to sum the componentwise product
    of a row and a column. *)
Definition weight (v : vec) : P := foldl sadd s0 v.

(** [ma * mb] for [mat<RA, CA, P>] and [mat<CA, CB, P>] *)
Definition mmul (RA CA CB : nat) (ma mb : mat) : mat :=
  [seq [seq weight [seq smul (get ma r k) (get mb k c) | k <- iota 0 CA]
       | c <- iota 0 CB]
  | r <- iota 0 RA].

(** *** Row operations of the vec header

    Modelled from the spec: the vec header is not part of the sources.  A row
    [m[r]] is a vec, and the spec gives the container componentwise
    arithmetic and a scalar multiple; [m[r] /= x] divides every component by
    the value [x], [x * v] multiplies every component by [x] and [v -= w]
    subtracts componentwise. *)

Definition row (m : mat) (r : nat) : vec := nth [::] m r.

Definition set_row (m : mat) (r : nat) (v : vec) : mat := set_nth [::] m r v.

Definition vec_div (v : vec) (x : P) : vec := [seq sdiv y x | y <- v].

Definition vec_scale (x : P) (v : vec) : vec := [seq smul x y | y <- v].

Definition vec_sub (v w : vec) : vec := [seq ssub p.1 p.2 | p <- zip v w].

(** *** Row echelon form

    The loops of [refMat] and [rrefMat] read [m[r][c]] at a column index that
    no loop condition bounds.  Such a read is checked here: the functions end
    in [OutOfRange r c] when they read outside of the [R] x [C] matrix, and in
    [Done m] with the matrix as it is left otherwise. *)

Inductive outcome : Type :=
| Done (m : mat)
| OutOfRange (r c : nat).

Definition bind (o : outcome) (k : mat -> outcome) : outcome :=
  match o with
  | Done m => k m
  | OutOfRange r c => OutOfRange r c
  end.

(** The read of [m[r][c]], passed on to [k]. *)
Definition rd (R C : nat) (m : mat) (r c : nat) (k : P -> outcome) : outcome :=
  if (r < R) && (c < C) then k (get m r c) else OutOfRange r c.

(** The search for [maxR] in [refMat], rows [r + 1 .. R - 1] of column [c]. *)
Definition ref_scan (R : nat) (m : mat) (r c : nat) : nat :=
  foldl (fun maxR r2 => if abs_gt (get m r2 c) (get m maxR c) then r2 else maxR)
        r (iota r.+1 (R - r.+1)).

(** How the loop [for(; c < C; ++c)] of [refMat] is left. *)
Inductive search : Type :=
| Break (m : mat) (c : nat)    (* by [break], with the pivot row in place *)
| Return                       (* by [return] *)
| Exit (c : nat).              (* by its condition *)

(** The loop [for(; c < C; ++c)] of [refMat]; [n] is [C - c]. *)
Fixpoint ref_search (R C : nat) (m : mat) (r c n : nat) : search :=
  match n with
  | 0 => Exit c
  | n'.+1 =>
      let maxR := ref_scan R m r c in
      if ~~ eq0 (get m maxR c)
      then Break (if r != maxR then swapRow C m r maxR else m) c
      else if c == C - 1 then Return
      else ref_search R C m r c.+1 n'
  end.

(** The elimination below row [r] in [refMat]. *)
Definition ref_elim (R : nat) (m : mat) (r c : nat) : mat :=
  foldl (fun m r2 =>
           if ~~ eq0 (get m r2 c)
           then set_row m r2
                  (vec_sub (row m r2)
                     (vec_scale (sdiv (get m r2 c) (get m r c)) (row m r)))
           else m)
        m (iota r.+1 (R - r.+1)).

(** What follows the search in an iteration of the outer loop of [refMat]. *)
Definition ref_reduce (R C : nat) (m : mat) (r c : nat)
    (k : mat -> outcome) : outcome :=
  rd R C m r c (fun x => k (ref_elim R (set_row m r (vec_div (row m r) x)) r c)).

(** The outer loop of [refMat] from row [r] and column [c]; [n] is [R - r]. *)
Fixpoint ref_rows (R C : nat) (m : mat) (r c n : nat) : outcome :=
  match n with
  | 0 => Done m
  | n'.+1 =>
      match ref_search R C m r c (C - c) with
      | Return => Done m
      | Break m1 c1 =>
          ref_reduce R C m1 r c1 (fun m2 => ref_rows R C m2 r.+1 c1.+1 n')
      | Exit c1 =>
          ref_reduce R C m r c1 (fun m2 => ref_rows R C m2 r.+1 c1.+1 n')
      end
  end.

(** [refMat(m)] *)
Definition refMat (R C : nat) (m : mat) : outcome := ref_rows R C m 0 0 R.

(** The loop [for(; c < C; ++c) if(m[r][c] != 0) break;] of [rrefMat], from
    column [c]: the value of [c] after it; [n] is [C - c]. *)
Fixpoint rref_lead (m : mat) (r c n : nat) : nat :=
  match n with
  | 0 => c
  | n'.+1 => if ~~ eq0 (get m r c) then c else rref_lead m r c.+1 n'
  end.

(** The elimination above row [r] in [rrefMat]. *)
Definition rref_elim (m : mat) (r c : nat) : mat :=
  foldl (fun m r2 =>
           set_row m r2
             (vec_sub (row m r2) (vec_scale (get m r2 c) (row m r))))
        m (iota 0 r).

(** The body of the loop over the rows in [rrefMat]. *)
Definition rref_row (R C : nat) (m : mat) (r : nat) : outcome :=
  let c := rref_lead m r 0 C in
  rd R C m r c (fun x =>
    if eq0 x then Done m
    else Done (rref_elim (set_row m r (vec_div (row m r) x)) r c)).

(** [rrefMat(m)] *)
Definition rrefMat (R C : nat) (m : mat) : outcome :=
  foldl (fun o r => bind o (fun m => rref_row R C m r))
        (refMat R C m) (rev (iota 0 R)).

(** *** Inversion

    Modelled from the spec: the inversion functions ([inverse] of a matrix
    and of a pair of factors) and the decomposition that records the
    permutation as a matrix are not part of the sources.  The spec has the
    decomposition apply the pivoting to a copy of [A] and record the
    permutation as the matrix [P]; the inverse of [(L, U)] solve
    [L y = e_i] by forward substitution and [U x = y] by back substitution
    for every column [e_i] of the identity; the inverse of [A] be the
    inverse of its factors times [P]; and both fail with an invalid-argument
    error when a diagonal entry of [U] is zero.  The test for zero is the
    exact one, which the spec names as the reference behaviour. *)

Inductive result : Type :=
| Ok (m : mat)
| InvalidArgument.

(** The permutation matrix: the swaps of [pivot] replayed on the identity. *)
Definition pivotMat (D : nat) (m : mat) : mat :=
  (foldl (fun st c =>
            let maxR := pivot_scan D st.1 c in
            if maxR != c
            then (swapRow D st.1 c maxR, swapRow D st.2 c maxR)
            else st)
         (m, identityMat D) (iota 0 D)).2.

(** The decomposition [(L, U, P)] of [A]. *)
Definition luDecomp (D : nat) (A : mat) : mat * mat * mat :=
  let lu := luDecomposition D (pivot D D A).1 in
  (lu.1, lu.2, pivotMat D A).

(** Forward substitution for [L y = b], [L] having a unit diagonal. *)
Definition forward_subst (D : nat) (L : mat) (b : vec) : vec :=
  foldl (fun y i =>
           set_nth s0 y i
             (ssub (nth s0 b i)
                   (foldl (fun acc k => sadd acc (smul (get L i k) (nth s0 y k)))
                          s0 (iota 0 i))))
        (nseq D s0) (iota 0 D).

(** Back substitution for [U x = y]. *)
Definition back_subst (D : nat) (U : mat) (y : vec) : vec :=
  foldl (fun x i =>
           set_nth s0 x i
             (sdiv (ssub (nth s0 y i)
                         (foldl (fun acc k =>
                                   sadd acc (smul (get U i k) (nth s0 x k)))
                                s0 (iota i.+1 (D - i.+1))))
                   (get U i i)))
        (nseq D s0) (rev (iota 0 D)).

(** Some diagonal entry of [U] is zero. *)
Definition singularLU (D : nat) (U : mat) : bool :=
  has (fun i => eq0 (get U i i)) (iota 0 D).

(** The inverse from the factors [(L, U)]. *)
Definition inverseLU (D : nat) (L U : mat) : result :=
  if singularLU D U then InvalidArgument
  else
    let cols := [seq back_subst D U (forward_subst D L (row (identityMat D) i))
                | i <- iota 0 D] in
    Ok [seq [seq nth s0 (nth [::] cols c) r | c <- iota 0 D] | r <- iota 0 D].

(** The inverse of a matrix. *)
Definition inverse (D : nat) (A : mat) : result :=
  let lup := luDecomp D A in
  match inverseLU D lup.1.1 lup.1.2 with
  | Ok X => Ok (mmul D D D X lup.2)
  | InvalidArgument => InvalidArgument
  end.

End Mat.

(** ** A scalar type with exact finite values

    [double] without rounding: the finite values are exact rationals, and the
    values that a division by zero produces (the infinities and NaN) follow
    the IEEE 754 rules.  Rounding, overflow and the sign of a zero are not
    modelled: a zero divisor counts as positive. *)

Inductive xq : Type :=
| Fin (q : Qc)
| Inf (neg : bool)
| NaN.

Definition qneg (q : Qc) : bool := Qclt_le_dec q (Q2Qc 0).

Definition qzero (q : Qc) : bool := Qc_eq_bool q (Q2Qc 0).

Definition xq_opp (x : xq) : xq :=
  match x with
  | Fin q => Fin (Qcopp q)
  | Inf s => Inf (~~ s)
  | NaN => NaN
  end.

Definition xq_add (x y : xq) : xq :=
  match x, y with
  | Fin a, Fin b => Fin (Qcplus a b)
  | Fin _, Inf s => Inf s
  | Inf s, Fin _ => Inf s
  | Inf s, Inf t => if eqb s t then Inf s else NaN
  | _, _ => NaN
  end.

Definition xq_sub (x y : xq) : xq := xq_add x (xq_opp y).

Definition xq_mul (x y : xq) : xq :=
  match x, y with
  | Fin a, Fin b => Fin (Qcmult a b)
  | Fin a, Inf s => if qzero a then NaN else Inf (xorb (qneg a) s)
  | Inf s, Fin b => if qzero b then NaN else Inf (xorb s (qneg b))
  | Inf s, Inf t => Inf (xorb s t)
  | _, _ => NaN
  end.

Definition xq_div (x y : xq) : xq :=
  match x, y with
  | Fin a, Fin b =>
      if qzero b then (if qzero a then NaN else Inf (qneg a))
      else Fin (Qcdiv a b)
  | Fin _, Inf _ => Fin (Q2Qc 0)
  | Inf s, Fin b => Inf (xorb s (qneg b))
  | Inf _, Inf _ => NaN
  | _, _ => NaN
  end.

Definition qabs (q : Qc) : Qc := if qneg q then Qcopp q else q.

Definition xq_abs_gt (x y : xq) : bool :=
  match x, y with
  | Fin a, Fin b => Qclt_le_dec (qabs b) (qabs a)
  | Inf _, Fin _ => true
  | _, _ => false
  end.

Definition xq_eq0 (x : xq) : bool :=
  match x with
  | Fin a => qzero a
  | _ => false
  end.

#[export] Instance xq_scalar : Scalar xq := {
  s0 := Fin (Q2Qc 0);
  s1 := Fin (Q2Qc 1);
  sadd := xq_add;
  ssub := xq_sub;
  smul := xq_mul;
  sdiv := xq_div;
  abs_gt := xq_abs_gt;
  eq0 := xq_eq0;
  of_int := fun z => Fin (Q2Qc (inject_Z z))
}.

(** Equality tests on [xq], on rows, on matrices and on outcomes, for
    comparing computed results. *)
Definition xq_eqb (x y : xq) : bool :=
  match x, y with
  | Fin a, Fin b => Qc_eq_bool a b
  | Inf s, Inf t => eqb s t
  | NaN, NaN => true
  | _, _ => false
  end.

Definition mat_eqb (a b : @mat xq) : bool := all2 (all2 xq_eqb) a b.

Definition outcome_eqb (a b : @outcome xq) : bool :=
  match a, b with
  | Done m, Done m' => mat_eqb m m'
  | OutOfRange r c, OutOfRange r' c' => (r == r') && (c == c')
  | _, _ => false
  end.

Definition result_eqb (a b : @result xq) : bool :=
  match a, b with
  | Ok m, Ok m' => mat_eqb m m'
  | InvalidArgument, InvalidArgument => true
  | _, _ => false
  end.

(** Finite literals and matrices of integers. *)
Definition zq (z : Z) : xq := Fin (Q2Qc (inject_Z z)).

Definition zmat (l : seq (seq Z)) : @mat xq := [seq [seq zq z | z <- v] | v <- l].

(** ** The matrices of the tests (docs/tests/mat.cpp) *)

(** [echolon]: the matrix [a] and the expected matrix [reduced]. *)
Definition echelon_a : @mat xq :=
  zmat [:: [:: 2; 1; -1; 8; 80];
           [:: -3; -1; 2; -11; -110];
           [:: -2; 1; 2; -3; -30]]%Z.

Definition echelon_reduced : @mat xq :=
  zmat [:: [:: 1; 0; 0; 2; 20];
           [:: 0; 1; 0; 3; 30];
           [:: 0; 0; 1; -1; -10]]%Z.

(** [lu]: the first matrix [a]. *)
Definition lu_a : @mat xq :=
  zmat [:: [:: 2; 2; 3];
           [:: 1; 1; -1];
           [:: 1; 0; 2]]%Z.

(** [inverse]: the invertible matrix [a] of the first block. *)
Definition inverse_a : @mat xq :=
  zmat [:: [:: 1; -2; 3; 5; 8];
           [:: 0; -1; -1; 2; 3];
           [:: 2; 4; -1; 3; 1];
           [:: 0; 0; 5; 0; 0];
           [:: 1; 3; 0; 4; -1]]%Z.

(** [inverse]: the singular matrix [a] of the second block. *)
Definition singular_a : @mat xq :=
  zmat [:: [:: 1; -2; 3; 5; 8];
           [:: 0; -1; -1; 0; 3];
           [:: 2; 4; -1; 10; 1];
           [:: 0; 0; 5; 0; 0];
           [:: 1; 3; 0; 5; -1]]%Z.

(** A matrix of rank one, and the zero matrix. *)
Definition rank1 : @mat xq := zmat [:: [:: 1; 2]; [:: 2; 4]]%Z.

Definition zero2 : @mat xq := zmat [:: [:: 0; 0]; [:: 0; 0]]%Z.

(** ** The scalar type [double]

    [double] as the binary64 numbers of IEEE 754, which the primitive
    floating-point numbers of Rocq are: every operation rounds its exact
    result to the nearest number, ties to even.  The matrices of the tests
    have the type [Mat<R, C, double>]. *)

(** The conversion of an [int]; it is exact below 2^53. *)
Fixpoint f64_of_pos (p : positive) : PrimFloat.float :=
  match p with
  | xH => PrimFloat.one
  | xO q => PrimFloat.mul PrimFloat.two (f64_of_pos q)
  | xI q =>
      PrimFloat.add (PrimFloat.mul PrimFloat.two (f64_of_pos q)) PrimFloat.one
  end.

Definition f64_of_int (z : Z) : PrimFloat.float :=
  match z with
  | Z0 => PrimFloat.zero
  | Zpos p => f64_of_pos p
  | Zneg p => PrimFloat.opp (f64_of_pos p)
  end.

Definition f64_scalar : Scalar PrimFloat.float := {|
  s0 := PrimFloat.zero;
  s1 := PrimFloat.one;
  sadd := PrimFloat.add;
  ssub := PrimFloat.sub;
  smul := PrimFloat.mul;
  sdiv := PrimFloat.div;
  abs_gt := fun x y => PrimFloat.ltb (PrimFloat.abs y) (PrimFloat.abs x);
  eq0 := fun x => PrimFloat.eqb x PrimFloat.zero;
  of_int := f64_of_int
|}.

Definition fmat (l : seq (seq Z)) : @mat PrimFloat.float :=
  [seq [seq f64_of_int z | z <- v] | v <- l].

(** The matrices [a] and [reduced] of [echolon] as matrices of [double]. *)
Definition echelon_a64 : @mat PrimFloat.float :=
  fmat [:: [:: 2; 1; -1; 8; 80];
           [:: -3; -1; 2; -11; -110];
           [:: -2; 1; 2; -3; -30]]%Z.

Definition echelon_reduced64 : @mat PrimFloat.float :=
  fmat [:: [:: 1; 0; 0; 2; 20];
           [:: 0; 1; 0; 3; 30];
           [:: 0; 0; 1; -1; -10]]%Z.

(** [reduced] but for four entries: 20 + 2^-47, 30 - 2^-48, -(1 - 2^-53)
    and -(10 - 6 * 2^-49). *)
Definition echelon_rounded64 : @mat PrimFloat.float :=
  [:: [:: 1%float; 0%float; 0%float; 2%float; 0x1.4000000000002p+4%float];
      [:: 0%float; 1%float; 0%float; 3%float; 0x1.dffffffffffffp+4%float];
      [:: 0%float; 0%float; 1%float;
          (-0x1.fffffffffffffp-1)%float; (-0x1.3fffffffffffap+3)%float]].

(** Every entry of [a] is within [eps] of the entry of [b]. *)
Definition close64 (eps : PrimFloat.float) (a b : @mat PrimFloat.float)
    : bool :=
  all2 (all2 (fun x y =>
                PrimFloat.leb (PrimFloat.abs (PrimFloat.sub x y)) eps)) a b.

(** The first matrix of [lu] and the singular matrix of [inverse] as
    matrices of [double]. *)
Definition lu_a64 : @mat PrimFloat.float :=
  fmat [:: [:: 2; 2; 3];
           [:: 1; 1; -1];
           [:: 1; 0; 2]]%Z.

Definition singular_a64 : @mat PrimFloat.float :=
  fmat [:: [:: 1; -2; 3; 5; 8];
           [:: 0; -1; -1; 0; 3];
           [:: 2; 4; -1; 10; 1];
           [:: 0; 0; 5; 0; 0];
           [:: 1; 3; 0; 5; -1]]%Z.

(** ** Exact arithmetic

    The laws of exact arithmetic that the decomposition relies on, for the
    values of [P] that satisfy [fin] (the finite values of a floating-point
    type, when rounding is left aside). *)

Record exact_on (P : Type) (SP : Scalar P) (fin : P -> bool) : Prop := ExactOn {
  fin_s0 : fin s0;
  fin_s1 : fin s1;
  fin_add : forall x y, fin x -> fin y -> fin (sadd x y);
  fin_sub : forall x y, fin x -> fin y -> fin (ssub x y);
  fin_mul : forall x y, fin x -> fin y -> fin (smul x y);
  fin_div : forall x y, fin x -> fin y -> ~~ eq0 y -> fin (sdiv x y);
  fin_of_int : forall z, fin (of_int z);
  exact_addr0 : forall x, fin x -> sadd x s0 = x;
  exact_mulC : forall x y, fin x -> fin y -> smul x y = smul y x;
  exact_mul0 : forall x, fin x -> smul s0 x = s0;
  exact_mul1 : forall x, fin x -> smul s1 x = x;
  exact_subK : forall x y, fin x -> fin y -> sadd x (ssub y x) = y;
  exact_divK : forall x y, fin x -> fin y -> ~~ eq0 y -> smul (sdiv x y) y = x
}.

(** The finite values of [xq]. *)
Definition xq_fin (x : xq) : bool := if x is Fin _ then true else false.

(** ** Invariants of the loops *)

Section Invariants.

Context {P : Type} {SP : Scalar P}.

(** The exchange of the row indices [a] and [b]. *)
Definition swapn (a b r : nat) : nat :=
  if r == a then b else if r == b then a else r.

(** [L] has ones on its diagonal and zeros above it, [U] has zeros below its
    diagonal. *)
Definition lu_shape (D : nat) (lu : @mat P * @mat P) : Prop :=
  [/\ forall i, i < D -> get lu.1 i i = s1,
      forall r c, r < c -> get lu.1 r c = s0
    & forall r c, c < r -> get lu.2 r c = s0].

(** The sign of a permutation as an [int]. *)
Definition sgnZ (D : nat) (s : 'S_D) : Z := if odd_perm s then (-1)%Z else 1%Z.

(** The state of [pivot] after the columns below [k]. *)
Definition pivot_upto (R C : nat) (m : @mat P) (k : nat) : @mat P * Z :=
  foldl (pivot_step R C) (m, 1%Z) (iota 0 k).

(** The calls [swapRow(m, c, maxR)] that [pivot] makes in the columns below
    [k], in their order, as the pairs [(c, maxR)]. *)
Definition pivot_swaps (R C : nat) (m : @mat P) (k : nat) : seq (nat * nat) :=
  foldl (fun sw c =>
           let maxR := pivot_scan R (pivot_upto R C m c).1 c in
           if maxR != c then rcons sw (c, maxR) else sw)
        [::] (iota 0 k).

(** The row of the original matrix that is in row [i] after the swaps [sw]. *)
Definition swaps_apply (sw : seq (nat * nat)) (i : nat) : nat :=
  foldr (fun t j => swapn t.1 t.2 j) i sw.

(** After the columns below [k] the matrix is the original one with the rows
    permuted by [s], the composition of the swaps made, and the sign is the
    sign of [s] and -1 to the number of swaps. *)
Definition pivot_inv (D : nat) (m : @mat P) (k : nat) (s : 'S_D) : Prop :=
  [/\ forall i : 'I_D, s i = swaps_apply (pivot_swaps D D m k) i :> nat,
      forall (i : 'I_D) c, c < D ->
        @get P SP (pivot_upto D D m k).1 i c = @get P SP m (s i) c,
      (pivot_upto D D m k).2 = sgnZ s
    & (pivot_upto D D m k).2 =
        if odd (size (pivot_swaps D D m k)) then (-1)%Z else 1%Z].

(** The columns below [k] have a diagonal entry that no entry under it
    exceeds. *)
Definition pivoted (R : nat) (k : nat) (m : @mat P) : Prop :=
  forall c r, c < k -> c <= r < R ->
    ~~ @abs_gt P SP (@get P SP m r c) (@get P SP m c c).

(** The cell [(r', c')] is visited before the cell [(r, c)] by the loops of
    [luDecomposition]. *)
Definition lu_before (r c r' c' : nat) : bool :=
  (r' < r) || ((r' == r) && (c' < c)).

(** The entry that the loops of [luDecomposition] assign in the cell
    [(r, c)]: of [U] on and above the diagonal, of [L] below it. *)
Definition lu_own (lu : @mat P * @mat P) (r c : nat) : P :=
  if r <= c then @get P SP lu.2 r c else @get P SP lu.1 r c.

(** The value that they assign to it. *)
Definition lu_val (m : @mat P) (lu : @mat P * @mat P) (r c : nat) : P :=
  if r <= c
  then ssub (@get P SP m r c) (lu_sum lu.1 lu.2 r c r)
  else sdiv (ssub (@get P SP m r c) (lu_sum lu.1 lu.2 r c c))
            (@get P SP lu.2 c c).

(** The cells visited before [(r, c)] hold the value assigned to them. *)
Definition lu_upto (D : nat) (m : @mat P) (r c : nat)
    (lu : @mat P * @mat P) : Prop :=
  forall r' c', r' < D -> c' < D -> lu_before r c r' c' ->
    lu_own lu r' c' = lu_val m lu r' c'.

End Invariants.

(** ** Further functions of the sources *)

Section MatMore.

Context {P : Type} {SP : Scalar P}.

(** [swapCol(m, a, b)] *)
Definition swapCol (R : nat) (m : @mat P) (a b : nat) : @mat P :=
  foldl (fun m i =>
           let x := get m i a in
           let y := get m i b in
           put (put m i a y) i b x)
        m (iota 0 R).

(** [ma * v] for [mat<R, C, P>] and [vec<C, P>]: the vec is filled with
    [P()] and then assigned component by component. *)
Definition mulvec (R C : nat) (ma : @mat P) (v : @vec P) : @vec P :=
  foldl (fun ret i =>
           set_nth s0 ret i
             (weight [seq smul (get ma i k) (nth s0 v k) | k <- iota 0 C]))
        (nseq R s0) (iota 0 R).

(** [v * ma] for [vec<C, P>] and [mat<R, C, P>] *)
Definition vecmul (R C : nat) (v : @vec P) (ma : @mat P) : @vec P :=
  mulvec R C ma v.

(** [m] has the shape of a [mat<R, C, P>]: [R] rows of [C] entries. *)
Definition shaped (R C : nat) (m : @mat P) : Prop :=
  size m = R /\ forall r, r < R -> size (nth [::] m r) = C.

End MatMore.

(** ** The contract of [det] *)

Section DetDefs.

Context {P : Type} {SP : Scalar P}.

(** The diagonal of a [D] x [D] matrix, from [m[0][0]] down. *)
Definition diagonal (D : nat) (m : @mat P) : seq P :=
  [seq get m i i | i <- iota 0 D].

(** The product of scalars, the factors taken from the first to the last:
    [((1 * x0) * x1) * ...]. *)
Definition product (s : seq P) : P := foldl smul s1 s.

End DetDefs.

(** ** Row echelon form *)

Section EchelonDefs.

Context {P : Type} {SP : Scalar P}.

(** The column of the leading entry of row [r], the first entry that is not
    zero, as the loop of [rrefMat] finds it; [C] for a row of zeros. *)
Definition lead (C : nat) (m : @mat P) (r : nat) : nat := rref_lead m r 0 C.

(** Row echelon form with leading ones: the leading entry of a row is 1, and
    it lies to the right of the leading entries of the rows above; the rows
    of zeros are the last ones. *)
Definition echelon (R C : nat) (m : @mat P) : Prop :=
  (forall r, r < R -> lead C m r < C -> get m r (lead C m r) = s1) /\
  (forall r1 r2, r1 < r2 -> r2 < R -> lead C m r2 < C ->
     lead C m r1 < lead C m r2).

(** The entries of an [R] x [C] matrix satisfy [fin]. *)
Definition finite_mat (fin : P -> bool) (R C : nat) (m : @mat P) : Prop :=
  forall r c, r < R -> c < C -> fin (get m r c).

(** The laws of exact arithmetic that the reduction to echelon form relies
    on, for the values that satisfy [fin]. *)
Record echelon_laws (fin : P -> bool) : Prop := EchelonLaws {
  ech_exact : exact_on SP fin;
  ech_abs_irrefl : forall x : P, abs_gt x x = false;
  ech_abs_trans : forall x y z : P, abs_gt x y -> abs_gt y z -> abs_gt x z;
  ech_abs0 : forall x, fin x -> ~~ abs_gt x s0 -> x = s0;
  ech_eq0_s0 : eq0 (s0 : P);
  ech_eq0_eq : forall x, fin x -> eq0 x -> x = s0;
  ech_neq0_s1 : ~~ eq0 (s1 : P);
  ech_divxx : forall x, fin x -> ~~ eq0 x -> sdiv x x = s1;
  ech_div0 : forall x, fin x -> ~~ eq0 x -> sdiv s0 x = s0;
  ech_divx1 : forall x, fin x -> sdiv x s1 = x;
  ech_subxx : forall x, fin x -> ssub x x = s0
}.

(** The state of [refMat] before the iteration for row [r], with the search
    at column [c]: the rows above [r] have their leading one in a column
    below [c], further right from row to row, and the rows from [r] on hold
    zeros in the columns below [c]. *)
Definition ref_inv (fin : P -> bool) (R C : nat) (m : @mat P) (r c : nat)
    : Prop :=
  [/\ shaped R C m, finite_mat fin R C m,
      forall r1, r1 < r -> lead C m r1 < c /\ get m r1 (lead C m r1) = s1,
      forall r1 r2, r1 < r2 -> r2 < r -> lead C m r1 < lead C m r2
    & forall r2 c2, r <= r2 -> r2 < R -> c2 < c -> get m r2 c2 = s0].

End EchelonDefs.

(** ** Reduced row echelon form *)

Section ReducedDefs.

Context {P : Type} {SP : Scalar P}.

(** Reduced row echelon form of a matrix without a row of zeros: row echelon
    form with leading ones, a leading entry in every row, and zeros in the
    column of a leading entry in all the other rows. *)
Definition reduced_echelon (R C : nat) (m : @mat P) : Prop :=
  [/\ echelon R C m,
      forall r, r < R -> lead C m r < C
    & forall r r', r < R -> r' < R -> r' != r -> get m r' (lead C m r) = s0].

(** The laws for [rrefMat]. *)
Record reduced_laws (fin : P -> bool) : Prop := ReducedLaws {
  red_echelon : echelon_laws fin;
  red_sub0 : forall x, fin x -> ssub x s0 = x
}.

(** The state of [rrefMat] before the iteration for row [n - 1]: the matrix
    is in row echelon form, and the rows from [n] on have a leading entry
    with zeros above it. *)
Definition rref_inv (fin : P -> bool) (R C : nat) (m : @mat P) (n : nat)
    : Prop :=
  [/\ shaped R C m, finite_mat fin R C m, echelon R C m,
      forall r2, n <= r2 -> r2 < R -> lead C m r2 < C
    & forall r2 r', n <= r2 -> r2 < R -> r' < r2 ->
        get m r' (lead C m r2) = s0].

End ReducedDefs.

(** * nytl/observe.hpp: Observable and ObservingPtr

    Objects are named by their addresses.  An [Observable] is its vector
    [observer_] of the addresses of its observers; an [ObservingPtr] is its
    member [object_], the address of the object it points to or nullptr
    ([None]).  The functions take the heap of these members and return it
    as they leave it. *)

Module Observe.

Definition addr : Type := nat.

(** [Observable::addObserver(obs)] *)
Definition addObserver (observer_ : seq addr) (obs : addr) : seq addr :=
  rcons observer_ obs.

(** [Observable::removeObserver(obs)]: the vector as it is left and the
    value returned, the difference of two [size_t] as an [unsigned int]. *)
Definition removeObserver (observer_ : seq addr) (obs : addr)
    : seq addr * Z :=
  let before := size observer_ in
  let observer_' := [seq o <- observer_ | o != obs] in
  (observer_', (Z.of_nat (before - size observer_') mod 2 ^ 32)%Z).

(** [Observable::moveObserver(oldone, newone)]: the vector as it is left and
    the value returned. *)
Definition moveObserver (observer_ : seq addr) (oldone newone : addr)
    : seq addr * bool :=
  let it := index oldone observer_ in
  if it == size observer_ then (observer_, false)
  else (set_nth newone observer_ it newone, true).

(** The members [observer_] of the observables and [object_] of the
    observing pointers, by address. *)
Record heap : Type := Heap {
  observer_ : addr -> seq addr;
  object_ : addr -> option addr
}.

Definition upd (T : Type) (f : addr -> T) (a : addr) (v : T) : addr -> T :=
  fun x => if x == a then v else f x.

(** [o->addObserver(obs)], [o->removeObserver(obs)] and
    [o->moveObserver(oldone, newone)] on the heap. *)
Definition add_at (h : heap) (o obs : addr) : heap :=
  Heap (upd (observer_ h) o (addObserver (observer_ h o) obs)) (object_ h).

Definition remove_at (h : heap) (o obs : addr) : heap :=
  Heap (upd (observer_ h) o (removeObserver (observer_ h o) obs).1)
       (object_ h).

Definition move_at (h : heap) (o oldone newone : addr) : heap :=
  Heap (upd (observer_ h) o (moveObserver (observer_ h o) oldone newone).1)
       (object_ h).

Definition set_object (h : heap) (this : addr) (obj : option addr) : heap :=
  Heap (observer_ h) (upd (object_ h) this obj).

(** [ObservingPtr::reset(T* obj)] for the pointer at [this] *)
Definition reset (h : heap) (this : addr) (obj : option addr) : heap :=
  let h1 := if obj is Some o then add_at h o this else h in
  let h2 := if object_ h1 this is Some o then remove_at h1 o this else h1 in
  set_object h2 this obj.

(** [ObservingPtr::operator=(const ObservingPtr& other)] *)
Definition assign (h : heap) (this other : addr) : heap :=
  reset h this (object_ h other).

(** [ObservingPtr::operator=(ObservingPtr&& other)] *)
Definition move_assign (h : heap) (this other : addr) : heap :=
  let h1 := reset h this None in
  let h2 := set_object h1 this (object_ h1 other) in
  let h3 := if object_ h2 this is Some o then move_at h2 o other this
            else h2 in
  set_object h3 other None.

(** [swap(a, b)] for two observing pointers *)
Definition swap (h : heap) (a b : addr) : heap :=
  let h1 := if object_ h a is Some o then move_at h o a b else h in
  let h2 := if object_ h1 b is Some o then move_at h1 o b a else h1 in
  let oa := object_ h2 a in
  let ob := object_ h2 b in
  set_object (set_object h2 a ob) b oa.

(** [Observable::~Observable()] for the observable at [o], all of whose
    observers are observing pointers: [observeDestruction] of an
    [ObservingPtr] sets its [object_] to nullptr. *)
Definition destroy (h : heap) (o : addr) : heap :=
  let cpy := observer_ h o in
  foldl (fun h obs => set_object h obs None)
        (Heap (upd (observer_ h) o [::]) (object_ h)) cpy.

(** Every observing pointer is once in the vector of the object it points
    to and in no other vector. *)
Definition consistent (h : heap) : Prop :=
  forall o p, count_mem p (observer_ h o) = (object_ h p == Some o) :> nat.

End Observe.

(** * nytl/referenced.hpp: Referenced and IntrusivePtr

    A [Referenced] object is its reference count, an [unsigned int], and
    the number of times its deleter has been called on it; the intrusive
    pointers that exist are the entries of a vector of their members
    [object_], a pointer being named by its position. *)

Module Intrusive.

Definition addr : Type := nat.

Record heap : Type := Heap {
  refcount : addr -> Z;
  deleted : addr -> nat;
  object_ : seq (option addr)
}.

Definition upd (T : Type) (f : addr -> T) (a : addr) (v : T) : addr -> T :=
  fun x => if x == a then v else f x.

(** Arithmetic of [unsigned int]. *)
Definition wrap (z : Z) : Z := (z mod 2 ^ 32)%Z.

(** [Referenced::ref()]: the heap as it is left and the value returned. *)
Definition ref (h : heap) (o : addr) : heap * Z :=
  let c := wrap (refcount h o + 1) in
  (Heap (upd (refcount h) o c) (deleted h) (object_ h), c).

(** [Referenced::unref()] *)
Definition unref (h : heap) (o : addr) : heap * Z :=
  let cpy := wrap (refcount h o - 1) in
  let h1 := Heap (upd (refcount h) o cpy) (deleted h) (object_ h) in
  (if (cpy =? 0)%Z
   then Heap (refcount h1) (upd (deleted h1) o (deleted h1 o).+1) (object_ h1)
   else h1, cpy).

(** [IntrusivePtr::get()] of the pointer at [p] *)
Definition get (h : heap) (p : nat) : option addr := nth None (object_ h) p.

Definition set_object (h : heap) (p : nat) (obj : option addr) : heap :=
  Heap (refcount h) (deleted h) (set_nth None (object_ h) p obj).

Definition new_object (h : heap) (obj : option addr) : heap :=
  Heap (refcount h) (deleted h) (rcons (object_ h) obj).

(** [IntrusivePtr(T* obj)]: the new pointer is the last one. *)
Definition construct (h : heap) (obj : option addr) : heap :=
  let this := size (object_ h) in
  let h1 := new_object h obj in
  if get h1 this is Some o then (ref h1 o).1 else h1.

(** [IntrusivePtr(const IntrusivePtr& other)]: [object_->ref()] is called
    without a test, which for a null [other] is a call through a null
    pointer ([None]). *)
Definition copy_construct (h : heap) (other : nat) : option heap :=
  let this := size (object_ h) in
  let h1 := new_object h (get h other) in
  if get h1 this is Some o then Some (ref h1 o).1 else None.

(** [IntrusivePtr(IntrusivePtr&& other)] *)
Definition move_construct (h : heap) (other : nat) : heap :=
  let h1 := new_object h (get h other) in
  set_object h1 other None.

(** [~IntrusivePtr()]: the pointer at [this] is no more. *)
Definition destruct (h : heap) (this : nat) : heap :=
  let h1 := if get h this is Some o then (unref h o).1 else h in
  Heap (refcount h1) (deleted h1)
       (take this (object_ h1) ++ drop this.+1 (object_ h1)).

(** [IntrusivePtr::reset(T* obj)] *)
Definition reset (h : heap) (this : nat) (obj : option addr) : heap :=
  let h1 := if obj is Some o then (ref h o).1 else h in
  let h2 := if get h1 this is Some o then (unref h1 o).1 else h1 in
  set_object h2 this obj.

(** [IntrusivePtr::operator=(const IntrusivePtr& other)] *)
Definition assign (h : heap) (this other : nat) : heap :=
  reset h this (get h other).

(** [IntrusivePtr::operator=(IntrusivePtr&& other)] *)
Definition move_assign (h : heap) (this other : nat) : heap :=
  let h1 := if get h this is Some o then (unref h o).1 else h in
  let h2 := set_object h1 this (get h1 other) in
  set_object h2 other None.

(** [swap(a, b)] for two intrusive pointers *)
Definition swap (h : heap) (a b : nat) : heap :=
  let oa := get h a in
  let ob := get h b in
  set_object (set_object h a ob) b oa.

(** The number of pointers to the object at [o]. *)
Definition refs (h : heap) (o : addr) : nat := count_mem (Some o) (object_ h).

(** The count of every object is the number of pointers to it, and its
    deleter has been called at most once, and only when no pointer to it
    was left. *)
Definition counted (h : heap) : Prop :=
  forall o, [/\ refcount h o = wrap (Z.of_nat (refs h o)),
                deleted h o <= 1
              & deleted h o = 1 -> refs h o = 0].

End Intrusive.

(** Two observing pointers, at 1 and 2, to the observable at 5. *)
Definition two_observers : Observe.heap :=
  Observe.Heap (fun o => if o == 5 then [:: 1; 2] else [::])
               (fun p => if (p == 1) || (p == 2) then Some 5 else None).

(** Three intrusive pointers, the first and the last to the object at 5. *)
Definition three_pointers : Intrusive.heap :=
  Intrusive.Heap (fun o => if o == 5 then 2%Z else 0%Z) (fun _ => 0)
                 [:: Some 5; None; Some 5].

(** * Properties *)

(** ** Loops and element access *)

(** Induction over a loop [for(i = 0; i < n; ++i)]. *)
Lemma loop_ind (T : Type) (I : nat -> T -> Prop) (f : T -> nat -> T) (a : T)
    (n : nat) :
  I 0 a ->
  (forall k x, k < n -> I k x -> I k.+1 (f x k)) ->
  I n (foldl f a (iota 0 n)).
Proof.
move=> I0 step.
suff H k : k <= n -> I k (foldl f a (iota 0 k)) by apply: H.
elim: k => [|k IH] // ltkn.
have -> : iota 0 k.+1 = iota 0 k ++ [:: k] by rewrite -addn1 iotaD add0n.
by rewrite foldl_cat /=; apply: step => //; apply: IH; apply: ltnW.
Qed.

(** Induction over a loop [for(i = b; i < b + n; ++i)]. *)
Lemma loop_from_ind (T : Type) (I : nat -> T -> Prop) (f : T -> nat -> T)
    (a : T) (b n : nat) :
  I b a ->
  (forall k x, b <= k < b + n -> I k x -> I k.+1 (f x k)) ->
  I (b + n) (foldl f a (iota b n)).
Proof.
move=> I0 step.
suff H k : k <= n -> I (b + k) (foldl f a (iota b k)) by apply: H.
elim: k => [|k IH]; first by rewrite addn0.
move=> ltkn.
have -> : iota b k.+1 = iota b k ++ [:: b + k] by rewrite -addn1 iotaD.
rewrite foldl_cat /= addnS.
apply: step; last by apply: IH; apply: ltnW.
by rewrite leq_addr ltn_add2l.
Qed.

Section Access.

Context {P : Type} {SP : Scalar P}.

Lemma get_put (m : @mat P) r c v r' c' :
  get (put m r c v) r' c' = if (r' == r) && (c' == c) then v else get m r' c'.
Proof.
rewrite /get /put nth_set_nth /=.
case: (r' =P r) => [->|_] //=.
by rewrite nth_set_nth /=; case: (c' == c).
Qed.

Lemma get_fill R C (v : P) r c :
  get (fill R C v) r c = if (r < R) && (c < C) then v else s0.
Proof.
rewrite /get /fill nth_nseq.
by case: (r < R) => /=; rewrite ?nth_nseq // nth_nil.
Qed.

Lemma get_identityMat D r c :
  get (identityMat (P:=P) D) r c = if (r == c) && (r < D) then s1 else s0.
Proof.
rewrite /identityMat.
pose I k (m : @mat P) := forall r c,
  @get P SP m r c = if (r == c) && (r < k) then @s1 P SP else @s0 P SP.
move: r c; apply: (@loop_ind _ I) => [|k x ltkD IH] r c.
  by rewrite get_fill ltn0 andbF; case: ifP.
rewrite get_put IH [r < k.+1]ltnS [r <= k]leq_eqVlt.
case: (r =P k) => [->|_] /=; last by [].
by rewrite ltnn andbF eq_sym; case: (k == c).
Qed.

(** [swapRow] exchanges the entries of rows [a] and [b] in the columns below
    [C] and leaves every other entry as it is. *)
Lemma get_swapRow C (m : @mat P) a b r c :
  get (swapRow C m a b) r c = if c < C then get m (swapn a b r) c else get m r c.
Proof.
rewrite /swapRow.
pose I k (x : @mat P) := forall r c,
  @get P SP x r c = if c < k then @get P SP m (swapn a b r) c
                    else @get P SP m r c.
move: r c; apply: (@loop_ind _ I) => [|k x ltkC IH] r c //=.
rewrite !get_put !IH ltnn [c < k.+1]ltnS [c <= k]leq_eqVlt /swapn.
case: (c =P k) => [->|_] /=; rewrite ?andbT ?andbF ?ltnn //.
case: (r =P b) => [->|_]; first by case: (b =P a) => [->|].
by case: (r == a).
Qed.

End Access.

(** ** LU decomposition: the shape of the factors *)

Section LUShape.

Context {P : Type} {SP : Scalar P}.

Lemma lu_shape_init D : lu_shape D (identityMat D, fill D D s0).
Proof.
split=> [i ltiD|r c ltrc|r c ltcr] /=.
- by rewrite get_identityMat eqxx ltiD.
- by rewrite get_identityMat (ltn_eqF ltrc).
- by rewrite get_fill; case: ifP.
Qed.

Lemma lu_shape_cell D (m : @mat P) lu r c :
  lu_shape D lu -> lu_shape D (lu_cell m lu r c).
Proof.
case=> diagL upL lowU; rewrite /lu_cell.
case: (leqP r c) => [lerc|ltcr].
  split=> //= r' c' ltcr'.
  rewrite get_put; case: eqP => [er|_] /=; last by apply: lowU.
  case: eqP => [ec|_]; last by apply: lowU.
  by move: ltcr'; rewrite er ec ltnNge lerc.
split=> //= [i ltiD|r' c' ltrc'].
- rewrite get_put; case: eqP => [ei|_] /=; last by apply: diagL.
  case: eqP => [ec|_]; last by apply: diagL.
  by move: ltcr; rewrite -ei -ec ltnn.
- rewrite get_put; case: eqP => [er|_] /=; last by apply: upL.
  case: eqP => [ec|_]; last by apply: upL.
  by move: ltrc'; rewrite er ec ltnNge (ltnW ltcr).
Qed.

Lemma lu_shape_row D (m : @mat P) lu r :
  lu_shape D lu -> lu_shape D (lu_row D m lu r).
Proof.
rewrite /lu_row; elim: (iota 0 D) lu => [|c cs IH] lu //= sh.
by apply: IH; apply: lu_shape_cell.
Qed.

Lemma lu_shape_luDecomposition D (m : @mat P) :
  lu_shape D (luDecomposition D m).
Proof.
rewrite /luDecomposition.
elim: (iota 0 D) (identityMat D, fill D D s0) (lu_shape_init D) => //=.
by move=> r rs IH lu sh; apply: IH; apply: lu_shape_row.
Qed.

(** C7: for a matrix [A] of dimension [D], the factors [(L, U)] that
    [luDecomposition] returns have every diagonal entry of [L] equal to 1,
    every entry of [L] above the diagonal equal to 0 and every entry of [U]
    below the diagonal equal to 0. *)
Theorem luDecomposition_triangular D (A : @mat P) :
  let L := (luDecomposition D A).1 in
  let U := (luDecomposition D A).2 in
  [/\ forall i, i < D -> get L i i = s1,
      forall r c, r < D -> c < D -> r < c -> get L r c = s0
    & forall r c, r < D -> c < D -> c < r -> get U r c = s0].
Proof.
case: (lu_shape_luDecomposition D A) => diagL upL lowU /=.
by split=> [//|r c _ _|r c _ _]; [apply: upL | apply: lowU].
Qed.

End LUShape.

(** ** LU decomposition: the equations of the factors *)

Section LUEquations.

Context {P : Type} {SP : Scalar P}.

Lemma lu_sum_ext (L U L' U' : @mat P) r c n :
  (forall k, k < n -> get U' k c = get U k c /\ get L' r k = get L r k) ->
  lu_sum L' U' r c n = lu_sum L U r c n.
Proof.
rewrite /lu_sum => agree.
pose I (k : nat) (x : P) :=
  x = foldl (fun vsum j => @sadd P SP vsum
                (@smul P SP (@get P SP U j c) (@get P SP L r j)))
            (@s0 P SP) (iota 0 k).
apply: (@loop_ind _ I) => [//|k x ltkn ->].
rewrite /I -[in RHS]addn1 iotaD foldl_cat /= add0n.
by case: (agree k ltkn) => -> ->.
Qed.

(** The value assigned to a cell depends on the cells visited before it. *)
Lemma lu_val_frame (m : @mat P) lu lu' r c :
  (forall r' c', lu_before r c r' c' ->
     get lu'.1 r' c' = get lu.1 r' c' /\ get lu'.2 r' c' = get lu.2 r' c') ->
  lu_val m lu' r c = lu_val m lu r c.
Proof.
move=> agree; rewrite /lu_val; case: (leqP r c) => [lerc|ltcr].
  congr ssub; apply: lu_sum_ext => k ltkr; split.
    by case: (agree k c) => //; rewrite /lu_before ltkr.
  case: (agree r k) => //.
  by rewrite /lu_before eqxx (leq_trans ltkr lerc) orbT.
congr sdiv; last by case: (agree c c) => //; rewrite /lu_before ltcr.
congr ssub; apply: lu_sum_ext => k ltkc; split.
  by case: (agree k c) => //; rewrite /lu_before (ltn_trans ltkc ltcr).
by case: (agree r k) => //; rewrite /lu_before eqxx ltkc orbT.
Qed.

Lemma lu_before_trans r c r1 c1 r2 c2 :
  lu_before r c r1 c1 || ((r1 == r) && (c1 == c)) ->
  lu_before r1 c1 r2 c2 -> lu_before r c r2 c2.
Proof.
rewrite /lu_before.
case/orP=> [/orP [lt1|/andP [/eqP -> lt1]]|/andP [/eqP -> /eqP ->]] //.
  case/orP=> [lt2|/andP [/eqP -> _]]; last by rewrite lt1.
  by rewrite (ltn_trans lt2 lt1).
case/orP=> [->//|/andP [-> lt2]].
by rewrite (ltn_trans lt2 lt1) orbT.
Qed.

Lemma lu_cellE (m : @mat P) lu r c :
  lu_cell m lu r c =
    if r <= c then (lu.1, put lu.2 r c (lu_val m lu r c))
    else (put lu.1 r c (lu_val m lu r c), lu.2).
Proof. by rewrite /lu_cell /lu_val; case: (r <= c). Qed.

(** [lu_cell] changes the cell [(r, c)] only. *)
Lemma lu_cell_other (m : @mat P) lu r c r' c' :
  ~~ ((r' == r) && (c' == c)) ->
  get (lu_cell m lu r c).1 r' c' = get lu.1 r' c' /\
  get (lu_cell m lu r c).2 r' c' = get lu.2 r' c'.
Proof.
move/negbTE => neq; rewrite lu_cellE.
by case: (r <= c) => /=; rewrite get_put neq.
Qed.

Lemma lu_cell_own (m : @mat P) lu r c :
  lu_own (lu_cell m lu r c) r c = lu_val m lu r c.
Proof.
rewrite lu_cellE /lu_own.
by case: (r <= c) => /=; rewrite get_put !eqxx.
Qed.

Lemma lu_before_neq r c r' c' :
  lu_before r c r' c' -> ~~ ((r' == r) && (c' == c)).
Proof.
rewrite /lu_before => /orP [ltr|/andP [_ ltc]].
  by rewrite (ltn_eqF ltr).
by rewrite (ltn_eqF ltc) andbF.
Qed.

Lemma lu_upto_cell D (m : @mat P) lu r c :
  lu_upto D m r c lu -> lu_upto D m r c.+1 (lu_cell m lu r c).
Proof.
move=> upto r' c' ltrD ltcD bef.
have old_or_new : lu_before r c r' c' || ((r' == r) && (c' == c)).
  move: bef; rewrite /lu_before [c' < c.+1]ltnS [c' <= c]leq_eqVlt.
  by case: (r' < r) => //=; case: (r' == r) => //=; rewrite orbC.
have frame : lu_val m (lu_cell m lu r c) r' c' = lu_val m lu r' c'.
  apply: lu_val_frame => r2 c2 bef2; apply: lu_cell_other.
  by apply: lu_before_neq; apply: lu_before_trans bef2.
rewrite frame; case/orP: old_or_new => [old|/andP [/eqP -> /eqP ->]].
  rewrite -(upto r' c') // /lu_own.
  by case: (lu_cell_other m lu (lu_before_neq old)) => -> ->.
exact: lu_cell_own.
Qed.

Lemma lu_upto_row D (m : @mat P) lu r :
  lu_upto D m r 0 lu -> lu_upto D m r.+1 0 (lu_row D m lu r).
Proof.
move=> upto; rewrite /lu_row.
pose I c (x : @mat P * @mat P) := @lu_upto P SP D m r c x.
have: I D (foldl (fun lu c => lu_cell m lu r c) lu (iota 0 D)).
  by apply: (@loop_ind _ I) => // c x _; apply: lu_upto_cell.
move=> full r' c' ltrD ltcD; rewrite /lu_before ltn0 andbF orbF ltnS => lerr.
apply: full => //.
by move: lerr; rewrite /lu_before leq_eqVlt ltcD andbT orbC.
Qed.

(** Every cell of the factors holds the value that its assignment gives it
    in the factors returned. *)
Lemma lu_upto_luDecomposition D (m : @mat P) r c :
  r < D -> c < D ->
  lu_own (luDecomposition D m) r c = lu_val m (luDecomposition D m) r c.
Proof.
move=> ltrD ltcD.
pose I k (x : @mat P * @mat P) := @lu_upto P SP D m k 0 x.
have: I D (luDecomposition D m).
  apply: (@loop_ind _ I) => [r' c' _ _|k x _]; last exact: lu_upto_row.
  by rewrite /lu_before ltn0 andbF.
by apply=> //; rewrite /lu_before ltrD.
Qed.

End LUEquations.

(** ** LU decomposition: the product of the factors *)

(** Induction over the cells in the order of the loops. *)
Lemma lu_before_lt D r c r' c' :
  c' < D -> lu_before r c r' c' -> r' * D + c' < r * D + c.
Proof.
move=> ltcD /orP [ltr|/andP [/eqP -> ltc]]; last by rewrite ltn_add2l.
apply: leq_trans (leq_addr _ _).
apply: (@leq_trans (r'.+1 * D)); last by rewrite leq_mul2r ltr orbT.
by rewrite mulSn [D + _]addnC -addnS leq_add2l.
Qed.

Lemma lu_before_ind D (Q : nat -> nat -> Prop) :
  (forall r c, r < D -> c < D ->
     (forall r' c', r' < D -> c' < D -> lu_before r c r' c' -> Q r' c') ->
     Q r c) ->
  forall r c, r < D -> c < D -> Q r c.
Proof.
move=> step r c.
have [n] := ubnP (r * D + c); elim: n r c => // n IH r c lt_n ltrD ltcD.
apply: step => // r' c' ltr'D ltc'D bef; apply: IH => //.
by apply: leq_trans (lu_before_lt ltc'D bef) _; rewrite -ltnS.
Qed.

Section LUProduct.

Context {P : Type} {SP : Scalar P}.

Variable fin : P -> bool.
Hypothesis exact : exact_on SP fin.

Variable D : nat.
Variable A : @mat P.

Let L : @mat P := (luDecomposition D A).1.
Let U : @mat P := (luDecomposition D A).2.

(** The entries of [A] are finite, and no pivot is zero where
    [luDecomposition] divides by it. *)
Hypothesis finA : forall r c, r < D -> c < D -> fin (get A r c).
Hypothesis pivots : forall c, c.+1 < D -> ~~ eq0 (get U c c).

Lemma fin_lu_sum (L' U' : @mat P) r c n :
  (forall k, k < n -> fin (get U' k c) /\ fin (get L' r k)) ->
  fin (lu_sum L' U' r c n).
Proof.
move=> fins; rewrite /lu_sum.
pose I (k : nat) (x : P) := is_true (fin x).
apply: (@loop_ind _ I) => [|k x ltkn finx]; first exact: fin_s0 exact.
case: (fins k ltkn) => finU finL.
by apply: (fin_add exact) => //; apply: (fin_mul exact).
Qed.

Lemma fin_lu_own r c :
  r < D -> c < D -> fin (lu_own (luDecomposition D A) r c).
Proof.
move: r c; apply: lu_before_ind => r c ltrD ltcD IH.
rewrite lu_upto_luDecomposition // /lu_val.
have finU k : k < r -> k <= c -> fin (get U k c).
  move=> ltkr lekc.
  have := IH k c (ltn_trans ltkr ltrD) ltcD; rewrite /lu_before ltkr /lu_own lekc.
  exact.
have finL k : k < r -> k < c -> fin (get L r k).
  move=> ltkr ltkc.
  have := IH r k ltrD (ltn_trans ltkr ltrD).
  rewrite /lu_before eqxx ltkc orbT /lu_own leqNgt ltkr /=.
  exact.
case: (leqP r c) => [lerc|ltcr].
  apply: (fin_sub exact); first exact: finA.
  apply: fin_lu_sum => k ltkr.
  have ltkc := leq_trans ltkr lerc.
  by split; [apply: finU => //; apply: ltnW | apply: finL].
apply: (fin_div exact); last by apply: pivots; apply: leq_ltn_trans ltrD.
  apply: (fin_sub exact); first exact: finA.
  apply: fin_lu_sum => k ltkc.
  have ltkr := ltn_trans ltkc ltcr.
  by split; [apply: finU => //; apply: ltnW | apply: finL].
exact: finU.
Qed.

Lemma fin_L r c : r < D -> c < D -> fin (get L r c).
Proof.
move=> ltrD ltcD; case: (lu_shape_luDecomposition D A) => diagL upL _.
case: (ltngtP r c) => [ltrc|ltcr|->].
- by rewrite /L upL //; apply: fin_s0 exact.
- by have := fin_lu_own ltrD ltcD; rewrite /lu_own leqNgt ltcr.
- by rewrite /L diagL //; apply: fin_s1 exact.
Qed.

Lemma fin_U r c : r < D -> c < D -> fin (get U r c).
Proof.
move=> ltrD ltcD; case: (lu_shape_luDecomposition D A) => _ _ lowU.
case: (leqP r c) => [lerc|ltcr].
  by have := fin_lu_own ltrD ltcD; rewrite /lu_own lerc.
by rewrite /U lowU //; apply: fin_s0 exact.
Qed.

(** The sum of the first [n] terms of the entry [(r, c)] of [L * U]. *)
Let psum (r c n : nat) : P :=
  foldl (fun acc k => sadd acc (smul (get L r k) (get U k c))) s0 (iota 0 n).

Lemma psumS r c n :
  psum r c n.+1 = sadd (psum r c n) (smul (get L r n) (get U n c)).
Proof. by rewrite /psum -addn1 iotaD foldl_cat /= add0n. Qed.

Lemma psum_lu_sum r c n :
  r < D -> c < D -> n <= D -> psum r c n = lu_sum L U r c n.
Proof.
move=> ltrD ltcD; elim: n => [//|n IH] ltnD.
rewrite psumS (IH (ltnW ltnD)).
rewrite /lu_sum -[in RHS]addn1 iotaD foldl_cat /= add0n.
by rewrite (exact_mulC exact) //; [apply: fin_L | apply: fin_U].
Qed.

Lemma fin_psum r c n : r < D -> c < D -> n <= D -> fin (psum r c n).
Proof.
move=> ltrD ltcD lenD; rewrite psum_lu_sum //.
apply: fin_lu_sum => k ltkn; have ltkD := leq_trans ltkn lenD.
by split; [apply: fin_U | apply: fin_L].
Qed.

(** Terms that are zero do not change the sum. *)
Lemma psum_tail r c n0 n :
  r < D -> c < D -> n0 <= n -> n <= D ->
  (forall k, n0 <= k < n -> smul (get L r k) (get U k c) = s0) ->
  psum r c n = psum r c n0.
Proof.
move=> ltrD ltcD le0 lenD zero; elim: n le0 lenD zero => [|n IH].
  by rewrite leqn0 => /eqP ->.
rewrite leq_eqVlt => /orP [/eqP -> //|]; rewrite ltnS => le0 ltnD zero.
have finn : fin (psum r c n) by apply: fin_psum => //; apply: ltnW.
have zn : smul (get L r n) (get U n c) = s0 by apply: zero; rewrite le0 leqnn.
rewrite psumS zn (exact_addr0 exact finn).
apply: IH => // [|k /andP [le0k ltkn]]; first exact: ltnW.
by apply: zero; rewrite le0k ltnS ltnW.
Qed.

Lemma weight_map (f : nat -> P) (z : P) (ks : seq nat) :
  foldl sadd z [seq f k | k <- ks] = foldl (fun acc k => sadd acc (f k)) z ks.
Proof. by elim: ks z => [|k ks IH] z //=; apply: IH. Qed.

Lemma get_mmul (ma mb : @mat P) RA CA CB r c :
  r < RA -> c < CB ->
  get (mmul RA CA CB ma mb) r c =
    foldl (fun acc k => sadd acc (smul (get ma r k) (get mb k c)))
          s0 (iota 0 CA).
Proof.
move=> ltr ltc; rewrite /get /mmul.
rewrite (nth_map 0) ?size_iota // (nth_map 0) ?size_iota // !nth_iota //.
by rewrite !add0n /weight weight_map.
Qed.

(** The entries of [L * U] are the entries of [A]. *)
Lemma lu_product_entry r c :
  r < D -> c < D -> get (mmul D D D L U) r c = get A r c.
Proof.
move=> ltrD ltcD; rewrite get_mmul // -/(psum r c D).
case: (lu_shape_luDecomposition D A) => diagL upL lowU.
have := @lu_upto_luDecomposition P SP D A r c ltrD ltcD.
rewrite /lu_own /lu_val -/U -/L.
case: (leqP r c) => [lerc|ltcr] own.
  have tail k : r.+1 <= k < D -> smul (get L r k) (get U k c) = s0.
    case/andP=> ltrk ltkD.
    by rewrite /L upL // (exact_mul0 exact) //; apply: fin_U.
  have finS : fin (lu_sum L U r c r).
    rewrite -(psum_lu_sum ltrD ltcD (ltnW ltrD)).
    exact: (fin_psum ltrD ltcD (ltnW ltrD)).
  rewrite (psum_tail ltrD ltcD ltrD (leqnn D) tail).
  rewrite psumS (psum_lu_sum ltrD ltcD (ltnW ltrD)).
  rewrite {1}/L diagL // (exact_mul1 exact (fin_U ltrD ltcD)) own.
  by rewrite (exact_subK exact finS (finA ltrD ltcD)).
have ltcD' : c.+1 < D by apply: leq_ltn_trans ltrD.
have tail k : c.+1 <= k < D -> smul (get L r k) (get U k c) = s0.
  case/andP=> ltck ltkD; rewrite /U lowU //.
  rewrite (exact_mulC exact (fin_L ltrD ltkD) (fin_s0 exact)).
  by rewrite (exact_mul0 exact (fin_L ltrD ltkD)).
have finS : fin (lu_sum L U r c c).
  rewrite -(psum_lu_sum ltrD ltcD (ltnW ltcD)).
  exact: (fin_psum ltrD ltcD (ltnW ltcD)).
have finAS : fin (ssub (get A r c) (lu_sum L U r c c)).
  by apply: (fin_sub exact) => //; apply: finA.
rewrite (psum_tail ltrD ltcD ltcD (leqnn D) tail).
rewrite psumS (psum_lu_sum ltrD ltcD (ltnW ltcD)) own.
rewrite (exact_divK exact finAS (fin_U ltcD ltcD) (pivots ltcD')).
by rewrite (exact_subK exact finS (finA ltrD ltcD)).
Qed.

(** With a zero as the last pivot, the only one that nothing is divided by,
    the product of the diagonal of [U] is zero. *)
Lemma diagonalMult_last_zero :
  0 < D -> get U D.-1 D.-1 = s0 -> diagonalMult D U = s0.
Proof.
case: D fin_U => [//|n] finU _ /= last0.
rewrite /diagonalMult -addn1 iotaD foldl_cat /= add0n last0.
have finp : fin (foldl (fun ret i => smul ret (get U i i)) s1 (iota 0 n)).
  pose I (k : nat) (x : P) := is_true (fin x).
  apply: (@loop_ind _ I) => [|k x ltkn finx]; first exact: fin_s1 exact.
  by apply: (fin_mul exact) => //; apply: finU; apply: ltnW.
by rewrite (exact_mulC exact finp (fin_s0 exact)) (exact_mul0 exact finp).
Qed.

End LUProduct.

(** ** The solvability classifier *)

(** C10: [analyzeRefMat] returns 0, the code for a system that is not
    solvable, whatever matrix it is given. *)
Theorem analyzeRefMat_always_zero (P : Type) (SP : Scalar P) (R C : nat)
    (m : @mat P) :
  analyzeRefMat R C m = 0.
Proof. by []. Qed.

(** ** Pivoting *)

Section Pivot.

Context {P : Type} {SP : Scalar P}.

(** The row that the inner loop of [pivot] selects is the current one or a
    later row of the matrix. *)
Lemma pivot_scan_range R (m : @mat P) c :
  pivot_scan R m c = c \/ c < pivot_scan R m c < R.
Proof.
rewrite /pivot_scan.
pose I (k x : nat) := x = c \/ c < x < k.
suff: I (c + (R - c)) (foldl (fun maxR r =>
         if @abs_gt P SP (@get P SP m r c) (@get P SP m maxR c)
         then r else maxR) c (iota c (R - c))).
  move: (foldl _ _ _) => x [->|/andP [ltcx ltx]]; [by left | right].
  rewrite ltcx /=; case: (leqP c R) ltx => [/subnKC -> //|/ltnW].
  rewrite -subn_eq0 => /eqP ->; rewrite addn0 => ltxc.
  by move: (ltn_trans ltcx ltxc); rewrite ltnn.
apply: (@loop_from_ind _ I) => [|k x /andP [leck ltk] IH]; first by left.
case: ifP => _; last first.
  by case: IH => [->|/andP [ltcx ltxk]]; [left | right; rewrite ltcx ltnW].
move: leck; rewrite leq_eqVlt => /orP [/eqP <-|ltck]; first by left.
by right; rewrite ltck ltnSn.
Qed.

Lemma swapn_tperm D (a b i : 'I_D) : swapn a b i = tperm a b i :> nat.
Proof.
rewrite /swapn; case: tpermP => [->|->|/eqP nia /eqP nib].
- by rewrite eqxx.
- by rewrite eqxx; case: eqP => [->|].
- by rewrite !(inj_eq (@ord_inj D)) (negbTE nia) (negbTE nib).
Qed.

Lemma pivot_uptoS R C (m : @mat P) k :
  pivot_upto R C m k.+1 = pivot_step R C (pivot_upto R C m k) k.
Proof.
by rewrite /pivot_upto -addn1 iotaD foldl_cat /= add0n.
Qed.

Lemma pivot_swapsS R C (m : @mat P) k :
  pivot_swaps R C m k.+1 =
    if pivot_scan R (pivot_upto R C m k).1 k != k
    then rcons (pivot_swaps R C m k) (k, pivot_scan R (pivot_upto R C m k).1 k)
    else pivot_swaps R C m k.
Proof.
by rewrite /pivot_swaps -addn1 iotaD foldl_cat /= add0n.
Qed.

Lemma swaps_apply_rcons sw t i :
  swaps_apply (rcons sw t) i = swaps_apply sw (swapn t.1 t.2 i).
Proof. by rewrite /swaps_apply foldr_rcons. Qed.

Lemma pivot_inv_upto D (m : @mat P) k :
  k <= D -> exists s : 'S_D, pivot_inv m k s.
Proof.
elim: k => [_|k IH ltkD].
  by exists 1%g; split=> [i|i c _||] //; rewrite ?perm1 // /sgnZ odd_perm1.
case: (IH (ltnW ltkD)) => s [swaps rows sign count].
rewrite /pivot_inv pivot_uptoS pivot_swapsS /pivot_step.
case: eqP => [_|/eqP neq] /=; first by exists s.
case: (pivot_scan_range D (pivot_upto D D m k).1 k) neq => [->|].
  by rewrite eqxx.
set x := pivot_scan D _ k => /andP [ltkx ltxD] neq.
pose ok := Ordinal ltkD; pose ox := Ordinal ltxD.
exists (tperm ok ox * s)%g; split=> [i|i c ltcD||].
- by rewrite swaps_apply_rcons permM swaps -swapn_tperm.
- by rewrite get_swapRow ltcD permM -rows // -swapn_tperm.
- rewrite sign /sgnZ odd_mul_tperm -(inj_eq (@ord_inj D)) /= eq_sym neq /=.
  by case: (odd_perm s).
- by rewrite count size_rcons /=; case: (odd _).
Qed.

(** C6: [pivot] leaves in [m] a row permutation of its original contents and
    returns the sign it accumulated, which starts at 1 and is multiplied by
    -1 for every swap of two rows.  With [s] the composition of the swaps
    made, row [i] of the result is row [s i] of the original matrix, the
    value returned is -1 to the number of swaps, it is 1 or -1, and it is
    the sign (the parity) of [s]. *)
Theorem pivot_permutation_sign D (m : @mat P) :
  exists s : 'S_D,
    [/\ forall i : 'I_D, s i = swaps_apply (pivot_swaps D D m D) i :> nat,
        forall i c : 'I_D, get (pivot D D m).1 i c = get m (s i) c,
        (pivot D D m).2 = (if odd (size (pivot_swaps D D m D)) then -1 else 1)%Z,
        (pivot D D m).2 = (if odd_perm s then -1 else 1)%Z
      & (pivot D D m).2 = 1%Z \/ (pivot D D m).2 = (-1)%Z].
Proof.
case: (pivot_inv_upto m (leqnn D)) => s [swaps rows sign count].
exists s; split=> [//|i c|//|//|]; first exact: rows.
by rewrite -/(pivot_upto D D m D) sign /sgnZ; case: (odd_perm s); [right | left].
Qed.

End Pivot.

(** ** The determinant *)

Section DetContract.

Context {P : Type} {SP : Scalar P}.

(** What [det] needs of the multiplication of [P]. *)
Hypothesis smulC : forall x y : P, smul x y = smul y x.
Hypothesis smul1 : forall x : P, smul s1 x = x.

Lemma diagonalMult_product D (m : @mat P) :
  diagonalMult D m = product (diagonal D m).
Proof.
rewrite /diagonalMult /product /diagonal.
by elim: (iota 0 D) s1 => [//|i s IH] x /=; rewrite IH.
Qed.

Lemma diagonal_unit D (m : @mat P) :
  (forall i, i < D -> get m i i = s1) -> diagonal D m = nseq D s1.
Proof.
move=> ones; apply: (@eq_from_nth _ s0).
  by rewrite size_map size_iota size_nseq.
rewrite size_map size_iota => i ltiD.
by rewrite (nth_map 0) ?size_iota // nth_iota // add0n nth_nseq ltiD ones.
Qed.

Lemma product_unit D : product (nseq D (@s1 P SP)) = s1.
Proof.
rewrite /product; elim: D => [//|D IH] /=.
by rewrite smul1.
Qed.

Lemma product_big (s : seq P) :
  (forall x y z : P, smul x (smul y z) = smul (smul x y) z) ->
  product s = \big[smul/s1]_(x <- s) x.
Proof.
move=> smulA; rewrite /product.
have gen : forall x, foldl smul x s = smul x (\big[smul/s1]_(y <- s) y).
  elim: s => [|y s IH] x /=; first by rewrite big_nil smulC smul1.
  by rewrite big_cons IH smulA.
by rewrite gen smul1.
Qed.

(** C5: [det(A)] is the product of the sign of the permutation, of the
    diagonal entries of [L] and of the diagonal entries of [U], for the
    factors [L], [U] of the pivoted copy of [A].  The sign is 1 or -1 as
    the number of row swaps of [pivot] is even or odd, and every diagonal
    entry of [L] is 1, so [det(A)] is the sign times the product of the
    diagonal entries of [U]: the product of [U[0][0]], ..., [U[D-1][D-1]]
    from the first to the last, and their product in any order when the
    multiplication is associative. *)
Theorem det_sign_diagonal D (A : @mat P) :
  let cpy := pivot D D A in
  let L := (luDecomposition D cpy.1).1 in
  let U := (luDecomposition D cpy.1).2 in
  [/\ cpy.2 = (if odd (size (pivot_swaps D D A D)) then -1 else 1)%Z,
      diagonal D L = nseq D s1,
      det D A = smul (smul (of_int cpy.2) (product (diagonal D L)))
                     (product (diagonal D U)),
      det D A = smul (of_int cpy.2) (product (diagonal D U))
    & (forall x y z : P, smul x (smul y z) = smul (smul x y) z) ->
      det D A = smul (of_int cpy.2) (\big[smul/s1]_(i < D) get U i i)].
Proof.
move=> cpy L U.
have sign : cpy.2 = (if odd (size (pivot_swaps D D A D)) then -1 else 1)%Z.
  by case: (pivot_inv_upto A (leqnn D)) => s [_ _ _].
have dL : diagonal D L = nseq D s1.
  apply: diagonal_unit => i ltiD.
  by case: (lu_shape_luDecomposition D cpy.1) => ->.
have detU : det D A = smul (of_int cpy.2) (product (diagonal D U)).
  rewrite /det -/cpy -/L -/U !diagonalMult_product dL product_unit smul1.
  exact: smulC.
split=> //.
- by rewrite dL product_unit [smul (of_int _) s1]smulC smul1.
move=> smulA; rewrite detU (product_big _ smulA) /diagonal big_map.
have -> : iota 0 D = index_iota 0 D by rewrite /index_iota subn0.
by rewrite big_mkord.
Qed.

End DetContract.

(** ** The decomposition of the pivoted matrix in exact arithmetic *)

Section PivotedProduct.

Context {P : Type} {SP : Scalar P}.

Variable fin : P -> bool.
Hypothesis exact : exact_on SP fin.

Lemma fin_pivot D (A : @mat P) :
  (forall r c, r < D -> c < D -> fin (get A r c)) ->
  forall r c, r < D -> c < D -> fin (get (pivot D D A).1 r c).
Proof.
move=> finA r c ltrD ltcD.
case: (pivot_inv_upto A (leqnn D)) => s [_ rows _ _].
by rewrite -/(pivot_upto D D A D) (rows (Ordinal ltrD)) //; apply: finA.
Qed.

(** In exact arithmetic on finite values the product of the factors of the
    pivoted copy of [A] is the pivoted copy, as long as no pivot that
    [luDecomposition] divides by is zero. *)
Theorem luDecomposition_product D (A : @mat P) :
  (forall r c, r < D -> c < D -> fin (get A r c)) ->
  let PA := (pivot D D A).1 in
  let L := (luDecomposition D PA).1 in
  let U := (luDecomposition D PA).2 in
  (forall c, c.+1 < D -> ~~ eq0 (get U c c)) ->
  forall r c, r < D -> c < D -> get (mmul D D D L U) r c = get PA r c.
Proof.
move=> finA PA L U pivots r c ltrD ltcD.
by apply: (lu_product_entry exact) => //; apply: fin_pivot.
Qed.

(** X14: in exact arithmetic on finite values [det] is exactly zero when the
    last pivot of [U] is zero and no pivot before it is. *)
Theorem det_last_pivot_zero D (A : @mat P) :
  (forall r c, r < D -> c < D -> fin (get A r c)) ->
  let U := (luDecomposition D (pivot D D A).1).2 in
  (forall c, c.+1 < D -> ~~ eq0 (get U c c)) ->
  0 < D -> get U D.-1 D.-1 = s0 ->
  det D A = s0.
Proof.
move=> finA U pivots lt0D last0; rewrite /det.
have finPA := fin_pivot finA.
rewrite (diagonalMult_last_zero exact finPA) //.
have finL : fin (diagonalMult D (luDecomposition D (pivot D D A).1).1).
  rewrite /diagonalMult.
  pose I (k : nat) (x : P) := is_true (fin x).
  apply: (@loop_ind _ I) => [|k x ltkD finx]; first exact: fin_s1 exact.
  by apply: (fin_mul exact) => //; apply: (fin_L exact finPA).
rewrite (exact_mulC exact finL (fin_s0 exact)) (exact_mul0 exact finL).
exact: (exact_mul0 exact (fin_of_int exact _)).
Qed.

End PivotedProduct.

(** ** Pivoting a pivoted matrix *)

Section PivotAgain.

Context {P : Type} {SP : Scalar P}.

(** [std::abs(x) > std::abs(y)] is a strict order on [P]. *)
Hypothesis abs_gt_irrefl : forall x : P, abs_gt x x = false.
Hypothesis abs_gt_trans :
  forall x y z : P, abs_gt x y -> abs_gt y z -> abs_gt x z.

(** No entry of column [c] from the diagonal down exceeds the entry of the
    selected row. *)
Lemma pivot_scan_max R (m : @mat P) c r :
  c <= r < R -> ~~ abs_gt (get m r c) (get m (pivot_scan R m c) c).
Proof.
move=> /andP [lecr ltrR]; rewrite /pivot_scan.
pose I (k x : nat) := forall r, c <= r < k ->
  ~~ @abs_gt P SP (@get P SP m r c) (@get P SP m x c).
have ltrk : c <= r < c + (R - c).
  by rewrite lecr subnKC // (leq_trans lecr (ltnW ltrR)).
move: r ltrk {lecr ltrR}.
apply: (@loop_from_ind _ I) => [r|k x _ IH r /andP [lecr]].
  by case/andP=> lecr /(leq_ltn_trans lecr); rewrite ltnn.
rewrite ltnS leq_eqVlt => /orP [/eqP ->|ltrk].
  by case: ifP => [_|->] //; rewrite abs_gt_irrefl.
have := IH r; rewrite lecr ltrk => /(_ isT) ngt.
case: ifP => // gtk; apply: contra ngt => gtr.
exact: abs_gt_trans gtr gtk.
Qed.

(** A column whose diagonal entry is not exceeded selects its own row. *)
Lemma pivot_scan_fixed R (m : @mat P) c :
  (forall r, c <= r < R -> ~~ abs_gt (get m r c) (get m c c)) ->
  pivot_scan R m c = c.
Proof.
move=> maxc; rewrite /pivot_scan.
pose I (k x : nat) := x = c.
apply: (@loop_from_ind _ I) => [//|k x /andP [leck ltk] ->].
rewrite /I (negbTE (maxc k _)) // leck /=.
case: (leqP c R) ltk => [/subnKC -> //|/ltnW].
rewrite -subn_eq0 => /eqP ->; rewrite addn0 => ltkc.
by move: (leq_ltn_trans leck ltkc); rewrite ltnn.
Qed.

Lemma pivoted_step R C (st : @mat P * Z) k :
  k < C -> pivoted R k st.1 -> pivoted R k.+1 (pivot_step R C st k).1.
Proof.
move=> ltkC piv; rewrite /pivot_step.
case: eqP => [ex|/eqP neq] /= c r.
  rewrite ltnS leq_eqVlt => /orP [/eqP ->|ltck]; last exact: piv.
  by move=> rng; rewrite -{2}ex; apply: pivot_scan_max.
case: (pivot_scan_range R st.1 k) neq => [->|]; first by rewrite eqxx.
set x := pivot_scan R st.1 k => /andP [ltkx ltxR] neq.
rewrite ltnS => leck /andP [lecr ltrR].
have ltcC : c < C by apply: leq_ltn_trans leck ltkC.
rewrite !get_swapRow ltcC.
have rng : c <= swapn k x r < R.
  rewrite /swapn; case: eqP => [_|_].
    by rewrite ltxR (leq_trans leck (ltnW ltkx)).
  by case: eqP => [_|_]; rewrite ?lecr ?ltrR // leck (ltn_trans ltkx ltxR).
move: leck; rewrite leq_eqVlt => /orP [/eqP ec|ltck].
  have -> : swapn k x c = x by rewrite ec /swapn eqxx.
  by move: rng; rewrite ec => rng; apply: pivot_scan_max.
have -> : swapn k x c = c.
  by rewrite /swapn (ltn_eqF ltck) (ltn_eqF (ltn_trans ltck ltkx)).
exact: piv.
Qed.

Lemma pivoted_pivot R C (m : @mat P) : pivoted R C (pivot R C m).1.
Proof.
rewrite /pivot.
pose I k (st : @mat P * Z) := @pivoted P SP R k st.1.
apply: (@loop_ind _ I) => [c r|k st ltkC]; first by [].
exact: pivoted_step.
Qed.

Lemma pivot_step_fixed R C (m : @mat P) (z : Z) c :
  c < C -> pivoted R C m -> pivot_step R C (m, z) c = (m, z).
Proof.
move=> ltcC piv; rewrite /pivot_step /= pivot_scan_fixed ?eqxx //.
by move=> r; apply: piv.
Qed.

Lemma pivot_upto_fixed R C (m : @mat P) k :
  pivoted R C m -> k <= C -> pivot_upto R C m k = (m, 1%Z).
Proof.
move=> piv; elim: k => [//|k IH] ltkC.
by rewrite pivot_uptoS (IH (ltnW ltkC)) pivot_step_fixed.
Qed.

Lemma pivot_fixed R C (m : @mat P) :
  pivoted R C m -> pivot R C m = (m, 1%Z).
Proof. by move=> piv; apply: (pivot_upto_fixed piv (leqnn C)). Qed.

Lemma pivot_swaps_fixed R C (m : @mat P) k :
  pivoted R C m -> k <= C -> pivot_swaps R C m k = [::].
Proof.
move=> piv; elim: k => [//|k IH] ltkC.
rewrite pivot_swapsS (IH (ltnW ltkC)) (pivot_upto_fixed piv (ltnW ltkC)) /=.
by rewrite pivot_scan_fixed ?eqxx // => r; apply: piv.
Qed.

(** C3: when the matrix that [pivot] leaves for [A] is pivoted again, no
    rows are swapped: the matrix stays as it is and the sign returned is 1,
    so that the decomposition of the pivoted matrix yields the same [L] and
    [U] as before. *)
Theorem pivot_idempotent D (A : @mat P) :
  let PA := (pivot D D A).1 in
  [/\ pivot D D PA = (PA, 1%Z),
      pivot_swaps D D PA D = [::]
    & luDecomposition D (pivot D D PA).1 = luDecomposition D PA].
Proof.
move=> PA; have piv : pivoted D D PA by apply: pivoted_pivot.
by split; rewrite ?(pivot_fixed piv) //; apply: pivot_swaps_fixed.
Qed.

End PivotAgain.

(** ** The scalar type [xq] *)

Lemma xq_eqb_eq (x y : xq) : xq_eqb x y = true -> x = y.
Proof.
case: x y => [a|s|] [b|t|] //=.
- by move/Qc_eq_bool_correct => ->.
- by case: s t => [] [].
Qed.

Lemma xq_eqb_refl (x : xq) : xq_eqb x x = true.
Proof.
case: x => [a|s|] //=; last by case: s.
by rewrite /Qc_eq_bool; case: (Qc_eq_dec a a).
Qed.

Lemma xq_eqb_neq (x y : xq) : xq_eqb x y = false -> x <> y.
Proof. by move=> neq exy; rewrite exy xq_eqb_refl in neq. Qed.

Lemma vec_eqb_eq (v w : @vec xq) : all2 xq_eqb v w = true -> v = w.
Proof.
elim: v w => [|x v IH] [|y w] //= /andP [/xq_eqb_eq -> /IH ->].
by [].
Qed.

Lemma mat_eqb_eq (a b : @mat xq) : mat_eqb a b = true -> a = b.
Proof.
rewrite /mat_eqb; elim: a b => [|v a IH] [|w b] //=.
by case/andP => /vec_eqb_eq -> /IH ->.
Qed.

Lemma mat_eqb_refl (a : @mat xq) : mat_eqb a a = true.
Proof.
rewrite /mat_eqb; elim: a => [|v a IH] //=; rewrite IH andbT.
by elim: v {IH} => [|x v IH] //=; rewrite xq_eqb_refl IH.
Qed.

Lemma mat_eqb_neq (a b : @mat xq) : mat_eqb a b = false -> a <> b.
Proof. by move=> neq eab; rewrite eab mat_eqb_refl in neq. Qed.

Lemma outcome_eqb_eq (a b : @outcome xq) : outcome_eqb a b = true -> a = b.
Proof.
case: a b => [m|r c] [m'|r' c'] //=; first by move/mat_eqb_eq => ->.
by case/andP => /eqP -> /eqP ->.
Qed.

Lemma result_eqb_eq (a b : @result xq) : result_eqb a b = true -> a = b.
Proof. by case: a b => [m|] [m'|] //= /mat_eqb_eq ->. Qed.

(** The multiplication of [xq] is commutative and has 1 as its unit. *)
Lemma xq_mulC (x y : xq) : smul x y = smul y x.
Proof.
case: x y => [a|s|] [b|t|] //=.
- by rewrite Qcmult_comm.
- by rewrite xorb_comm.
- by rewrite xorb_comm.
- by rewrite xorb_comm.
Qed.

Lemma xq_mul1 (x : xq) : smul s1 x = x.
Proof. by case: x => [a|s|] //=; rewrite Qcmult_1_l. Qed.

(** The comparison of absolute values is a strict order on [xq]. *)
Lemma xq_abs_gt_irrefl (x : xq) : abs_gt x x = false.
Proof.
case: x => [a|s|] //=.
by case: Qclt_le_dec => [lt|//]; case: (Qlt_irrefl _ lt).
Qed.

Lemma xq_abs_gt_trans (x y z : xq) : abs_gt x y -> abs_gt y z -> abs_gt x z.
Proof.
case: x y z => [a|s|] [b|t|] [c|u|] //=.
case: Qclt_le_dec => // ltba _; case: Qclt_le_dec => // ltcb _.
case: Qclt_le_dec => [//|leac].
by case: (Qcle_not_lt _ _ leac); apply: Qclt_trans ltcb ltba.
Qed.

(** The finite values of [xq] obey the laws of exact arithmetic. *)
Lemma qzero_neq (b : Qc) : ~~ qzero b -> b <> Q2Qc 0.
Proof.
move=> nz eb; move: nz; rewrite eb /qzero /Qc_eq_bool.
by case: Qc_eq_dec.
Qed.

Lemma xq_exact : exact_on xq_scalar xq_fin.
Proof.
split.
- by [].
- by [].
- by case=> [a|s|] [b|t|].
- by case=> [a|s|] [b|t|].
- by case=> [a|s|] [b|t|].
- by case=> [a|s|] [b|t|] //= _ _ /negbTE ->.
- by [].
- by case=> [a|s|] //= _; rewrite Qcplus_0_r.
- by move=> x y _ _; apply: xq_mulC.
- by case=> [a|s|] //= _; rewrite Qcmult_0_l.
- by move=> x _; apply: xq_mul1.
- case=> [a|s|] [b|t|] //= _ _; congr Fin.
  by rewrite Qcplus_comm -Qcplus_assoc [(- a + a)%Qc]Qcplus_comm Qcplus_opp_r
             Qcplus_0_r.
- case=> [a|s|] [b|t|] //= _ _ nz; rewrite (negbTE nz) /=; congr Fin.
  by rewrite /Qcdiv -Qcmult_assoc [(/ b * b)%Qc]Qcmult_comm Qcmult_inv_r
             ?Qcmult_1_r //; apply: qzero_neq.
Qed.

Lemma zmat_fin (l : seq (seq Z)) r c : xq_fin (get (zmat l) r c).
Proof.
rewrite /get /zmat; case: (ltnP r (size l)) => [ltr|ler]; last first.
  by rewrite [nth [::] _ r]nth_default ?nth_nil // size_map.
rewrite (nth_map [::]) //.
case: (ltnP c (size (nth [::] l r))) => [ltc|lec]; last first.
  by rewrite nth_default // size_map.
by rewrite (nth_map 0%Z).
Qed.

(** ** Reduced row echelon form *)

Section ZeroRow.

Context {P : Type} {SP : Scalar P}.

(** On a row without a nonzero entry the search of [rrefMat] for the leading
    entry runs through all the columns. *)
Lemma rref_lead_zero_row (m : @mat P) r c n :
  (forall k, c <= k < c + n -> eq0 (get m r k)) -> rref_lead m r c n = c + n.
Proof.
elim: n c => [|n IH] c zero /=; first by rewrite addn0.
have -> : eq0 (get m r c) by apply: zero; rewrite leqnn /= addnS ltnS leq_addr.
rewrite /= IH ?addSnnS // => k /andP [ltck ltk].
by apply: zero; rewrite (ltnW ltck).
Qed.

(** The iteration of the loop of [rrefMat] for a row without a nonzero entry
    tests [m[r][c]] with [c] equal to the number of columns. *)
Lemma rref_row_zero_row R C (m : @mat P) r :
  (forall k, k < C -> eq0 (get m r k)) -> rref_row R C m r = OutOfRange r C.
Proof.
move=> zero; rewrite /rref_row.
have -> : rref_lead m r 0 C = C.
  by rewrite rref_lead_zero_row // => k /andP [_]; apply: zero.
by rewrite /rd ltnn andbF.
Qed.

End ZeroRow.

(** C2: [rrefMat] on the 2 x 2 matrix of rank one with the rows (1, 2) and
    (2, 4).  [refMat] leaves the rows (1, 2) and (0, 0); for the row of
    zeros the loop over the columns ends with the column index 2, and the
    test that is to skip the row reads [m[1][2]], outside of the matrix. *)
Theorem rrefMat_zero_row_out_of_range :
  refMat 2 2 rank1 = Done (zmat [:: [:: 1; 2]; [:: 0; 0]]%Z) /\
  rrefMat 2 2 rank1 = OutOfRange 1 2.
Proof. by split; apply: outcome_eqb_eq; vm_compute. Qed.

(** In exact arithmetic [rrefMat] turns the 3 x 5 matrix of the test
    [echolon] into the matrix that the test expects. *)
Lemma echelon_test_exact : rrefMat 3 5 echelon_a = Done echelon_reduced.
Proof. by apply: outcome_eqb_eq; vm_compute. Qed.

(** In [double] it leaves a matrix that has four other entries. *)
Lemma echelon_test_binary64 :
  @rrefMat _ f64_scalar 3 5 echelon_a64 = Done echelon_rounded64.
Proof. by vm_compute. Qed.

(** The matrix that [rrefMat] leaves of the matrix of [echolon] in [double]
    is not the matrix [reduced]: its entry (0, 4) is not 20. *)
Lemma echelon_test_binary64_differs :
  @rrefMat _ f64_scalar 3 5 echelon_a64 <> Done echelon_reduced64.
Proof.
move=> e.
have : (if @rrefMat _ f64_scalar 3 5 echelon_a64 is Done m
        then PrimFloat.eqb (@get _ f64_scalar m 0 4) 20%float else true)
       = true.
  by rewrite e; vm_compute.
by vm_compute.
Qed.

(** C8: [rrefMat] turns the 3 x 5 matrix of the test [echolon] into the
    matrix that the test expects, up to the rounding of the scalar type:
    into that matrix in exact arithmetic, and in [double] into a matrix
    that has eleven of its entries and 20 + 2^-47, 30 - 2^-48,
    -(1 - 2^-53) and -(10 - 6 * 2^-49) for 20, 30, -1 and -10, every entry
    within 2^-46 of the expected one. *)
Theorem rrefMat_echelon_test_rounded :
  [/\ rrefMat 3 5 echelon_a = Done echelon_reduced,
      @rrefMat _ f64_scalar 3 5 echelon_a64 = Done echelon_rounded64
    & close64 0x1p-46%float echelon_rounded64 echelon_reduced64].
Proof.
split; [exact: echelon_test_exact | exact: echelon_test_binary64 |].
by vm_compute.
Qed.

(** ** The decomposition and the determinant on the matrices of the tests *)

(** C1: the decomposition of the matrix [a] of the test [lu], which asserts
    [l * u == p * a].  [pivot] swaps no rows of it; the second pivot of [U]
    is 0, the division by it makes [L[2][1]] infinite, and the product
    [L * U] is not the pivoted matrix: its entry (2, 1) is not a number. *)
Theorem luDecomposition_lu_test_product :
  let cpy := pivot 3 3 lu_a in
  let lu := luDecomposition 3 cpy.1 in
  [/\ cpy.1 = lu_a /\ cpy.2 = 1%Z,
      get lu.2 1 1 = Fin (Q2Qc 0) /\ get lu.1 2 1 = Inf true,
      get (mmul 3 3 3 lu.1 lu.2) 2 1 = NaN
    & mmul 3 3 3 lu.1 lu.2 <> cpy.1].
Proof.
split.
- by split; [apply: mat_eqb_eq|]; vm_compute.
- by split; apply: xq_eqb_eq; vm_compute.
- by apply: xq_eqb_eq; vm_compute.
- by apply: mat_eqb_neq; vm_compute.
Qed.

(** C4: the determinant of the singular matrix of the test [inverse], which
    asserts that it is 0.  The fourth pivot of [U] is 0, the division by it
    makes [L[4][3]] and with it the last pivot of [U] not a number, and so
    is the value of [det].  The same holds for the zero matrix. *)
Theorem det_singular_test_nan :
  let U := (luDecomposition 5 (pivot 5 5 singular_a).1).2 in
  [/\ get U 3 3 = Fin (Q2Qc 0), get U 4 4 = NaN,
      det 5 singular_a = NaN, det 5 singular_a <> Fin (Q2Qc 0)
    & det 2 zero2 = NaN].
Proof.
split; try by apply: xq_eqb_eq; vm_compute.
by apply: xq_eqb_neq; vm_compute.
Qed.

(** The two tests in [double]: every value up to the division by the zero
    pivot is exact, and the results are those of exact arithmetic. *)
Lemma lu_test_binary64 :
  let cpy := @pivot _ f64_scalar 3 3 lu_a64 in
  let lu := @luDecomposition _ f64_scalar 3 cpy.1 in
  [/\ cpy = (lu_a64, 1%Z),
      @get _ f64_scalar lu.2 1 1 = 0%float,
      @get _ f64_scalar lu.1 2 1 = PrimFloat.neg_infinity
    & @get _ f64_scalar (@mmul _ f64_scalar 3 3 3 lu.1 lu.2) 2 1
      = PrimFloat.nan].
Proof. by split; vm_compute. Qed.

Lemma singular_test_binary64 :
  let U := (@luDecomposition _ f64_scalar 5
              (@pivot _ f64_scalar 5 5 singular_a64).1).2 in
  [/\ @get _ f64_scalar U 3 3 = 0%float,
      @get _ f64_scalar U 4 4 = PrimFloat.nan
    & @det _ f64_scalar 5 singular_a64 = PrimFloat.nan].
Proof. by split; vm_compute. Qed.

(** The matrices of the tests on which the decomposition divides by no zero:
    the determinant of the invertible matrix is -135, and the inverses of the
    model multiply with it to the identity from both sides. *)
Lemma det_inverse_test : det 5 inverse_a = zq (-135).
Proof. by apply: xq_eqb_eq; vm_compute. Qed.

Lemma inverse_test :
  let X := if inverse 5 inverse_a is Ok Y then Y else [::] in
  [/\ inverse 5 inverse_a = Ok X,
      mmul 5 5 5 inverse_a X = identityMat 5
    & mmul 5 5 5 X inverse_a = identityMat 5].
Proof.
split.
- by apply: result_eqb_eq; vm_compute.
- by apply: mat_eqb_eq; vm_compute.
- by apply: mat_eqb_eq; vm_compute.
Qed.

(** ** Inversion of a singular matrix *)

Section Inverse.

Context {P : Type} {SP : Scalar P}.

Lemma inverseLU_invalid D (L U : @mat P) :
  inverseLU D L U = InvalidArgument <-> exists2 i, i < D & eq0 (get U i i).
Proof.
rewrite /inverseLU /singularLU; case: hasP => [[i iD z0]|nz]; split=> //.
- by move=> _; exists i => //; move: iD; rewrite mem_iota add0n.
- by case=> i ltiD z0; case: nz; exists i => //; rewrite mem_iota add0n.
Qed.

Lemma inverse_invalid D (A : @mat P) :
  inverse D A = InvalidArgument <->
  inverseLU D (luDecomp D A).1.1 (luDecomp D A).1.2 = InvalidArgument.
Proof. by rewrite /inverse; case: inverseLU. Qed.

(** C9: a matrix [A] is singular when a diagonal entry of the factor [U] of
    its decomposition is zero; then [inverse] of [A] and [inverse] of the
    factors [(L, U)] both fail with the invalid-argument error, and the
    error is raised in no other case. *)
Theorem inverse_singular_invalid_argument D (A : @mat P) :
  let L := (luDecomp D A).1.1 in
  let U := (luDecomp D A).1.2 in
  [/\ (exists2 i, i < D & eq0 (get U i i)) ->
        inverse D A = InvalidArgument /\ inverseLU D L U = InvalidArgument,
      inverse D A = InvalidArgument -> exists2 i, i < D & eq0 (get U i i)
    & inverseLU D L U = InvalidArgument -> exists2 i, i < D & eq0 (get U i i)].
Proof.
move=> L U; split=> [sing|/inverse_invalid|]; last by move/inverseLU_invalid.
  have invLU : inverseLU D L U = InvalidArgument by apply/inverseLU_invalid.
  by split=> //; apply/inverse_invalid.
by move/inverseLU_invalid.
Qed.

End Inverse.

(** The singular matrix of the test [inverse], which expects the error from
    both functions. *)
Lemma inverse_singular_test :
  inverse 5 singular_a = InvalidArgument /\
  inverseLU 5 (luDecomp 5 singular_a).1.1 (luDecomp 5 singular_a).1.2
    = InvalidArgument.
Proof. by split; apply: result_eqb_eq; vm_compute. Qed.

(** ** The general results at the scalar type [xq] *)

(** The determinant of the invertible matrix of the test [inverse]. *)
Lemma det_sign_diagonal_xq :
  let cpy := pivot 5 5 inverse_a in
  let L := (luDecomposition 5 cpy.1).1 in
  let U := (luDecomposition 5 cpy.1).2 in
  [/\ cpy.2 = (if odd (size (pivot_swaps 5 5 inverse_a 5)) then -1 else 1)%Z,
      diagonal 5 L = nseq 5 s1,
      det 5 inverse_a = smul (smul (of_int cpy.2) (product (diagonal 5 L)))
                             (product (diagonal 5 U)),
      det 5 inverse_a = smul (of_int cpy.2) (product (diagonal 5 U))
    & (forall x y z : xq, smul x (smul y z) = smul (smul x y) z) ->
      det 5 inverse_a =
        smul (of_int cpy.2) (\big[smul/s1]_(i < 5) get U i i)].
Proof. exact (@det_sign_diagonal xq xq_scalar xq_mulC xq_mul1 5 inverse_a). Defined.

(** Pivoting the pivoted matrix of the test [inverse]. *)
Lemma pivot_idempotent_xq :
  let PA := (pivot 5 5 inverse_a).1 in
  [/\ pivot 5 5 PA = (PA, 1%Z),
      pivot_swaps 5 5 PA 5 = [::]
    & luDecomposition 5 (pivot 5 5 PA).1 = luDecomposition 5 PA].
Proof.
exact (@pivot_idempotent xq xq_scalar xq_abs_gt_irrefl xq_abs_gt_trans
         5 inverse_a).
Defined.

(** The product of the factors of the invertible matrix of the test
    [inverse], whose four leading pivots are not zero. *)
Lemma luDecomposition_product_xq :
  let PA := (pivot 5 5 inverse_a).1 in
  let L := (luDecomposition 5 PA).1 in
  let U := (luDecomposition 5 PA).2 in
  forall r c, r < 5 -> c < 5 -> get (mmul 5 5 5 L U) r c = get PA r c.
Proof.
apply: (luDecomposition_product xq_exact) => [r c _ _|c].
  exact: zmat_fin.
by do 4![case: c => [_|c]; first by vm_compute].
Qed.

(** The determinant of the matrix with the rows (1, 2) and (2, 4), whose
    last pivot is the only one that is zero. *)
Lemma det_last_pivot_zero_xq : det 2 rank1 = s0.
Proof.
apply: (det_last_pivot_zero xq_exact) => [r c _ _|c|//|].
- exact: zmat_fin.
- by case: c => [_|c]; first by vm_compute.
- by apply: xq_eqb_eq; vm_compute.
Defined.

(** * Further properties *)

(** ** Swapping rows and columns *)

Section Swaps.

Context {P : Type} {SP : Scalar P}.

Lemma get_swapCol R (m : @mat P) a b r c :
  get (swapCol R m a b) r c = if r < R then get m r (swapn a b c) else get m r c.
Proof.
rewrite /swapCol.
pose I k (x : @mat P) := forall r c,
  @get P SP x r c = if r < k then @get P SP m r (swapn a b c)
                    else @get P SP m r c.
move: r c; apply: (@loop_ind _ I) => [|k x ltkR IH] r c //=.
rewrite !get_put !IH ltnn [r < k.+1]ltnS [r <= k]leq_eqVlt /swapn.
case: (r =P k) => [->|_] /=; rewrite ?ltnn //.
case: (c =P b) => [->|_]; first by case: (b =P a) => [->|].
by case: (c == a).
Qed.

Lemma swapnK a b : involutive (swapn a b).
Proof.
move=> r; rewrite /swapn.
case: (r =P a) => [->|/eqP nra]; first by rewrite eqxx; case: (b =P a).
case: (r =P b) => [->|/eqP nrb]; first by rewrite eqxx.
by rewrite (negbTE nra) (negbTE nrb).
Qed.

(** X1: [swapRow(m, a, b)] exchanges the entries of the rows [a] and [b] in
    the columns below [C] and changes no other entry. *)
Theorem swapRow_exchanges_rows C (m : @mat P) a b r c :
  get (swapRow C m a b) r c =
    if c < C
    then (if r == a then get m b c else if r == b then get m a c
          else get m r c)
    else get m r c.
Proof.
rewrite get_swapRow /swapn; case: (c < C) => //.
by case: (r == a) => //; case: (r == b).
Qed.

(** X2: swapping the same two rows twice gives back every entry of the
    matrix, and so does swapping the same two columns twice. *)
Theorem swap_twice C R (m : @mat P) a b r c :
  get (swapRow C (swapRow C m a b) a b) r c = get m r c /\
  get (swapCol R (swapCol R m a b) a b) r c = get m r c.
Proof.
rewrite !get_swapRow !get_swapCol.
by case: (c < C); case: (r < R); rewrite ?swapnK.
Qed.

(** X3: [swapCol(m, a, b)] exchanges the entries of the columns [a] and [b]
    in the rows below [R] and changes no other entry. *)
Theorem swapCol_exchanges_cols R (m : @mat P) a b r c :
  get (swapCol R m a b) r c =
    if r < R
    then (if c == a then get m r b else if c == b then get m r a
          else get m r c)
    else get m r c.
Proof.
rewrite get_swapCol /swapn; case: (r < R) => //.
by case: (c == a) => //; case: (c == b).
Qed.

(** X4: a swap of two rows and a swap of two columns of an [R] x [C] matrix
    can be made in either order. *)
Theorem swapRow_swapCol_commute R C (m : @mat P) a b a' b' r c :
  r < R -> c < C -> a' < C -> b' < C -> a < R -> b < R ->
  get (swapCol R (swapRow C m a b) a' b') r c =
  get (swapRow C (swapCol R m a' b') a b) r c.
Proof.
move=> ltrR ltcC lta' ltb' lta ltb.
have ltsc : swapn a' b' c < C.
  by rewrite /swapn; case: (c == a') => //; case: (c == b').
have ltsr : swapn a b r < R.
  by rewrite /swapn; case: (r == a) => //; case: (r == b).
by rewrite get_swapCol ltrR get_swapRow ltsc get_swapRow ltcC get_swapCol ltsr.
Qed.

(** X5: [identityMat<D, P>()] holds 1 in the [D] entries of the diagonal and
    0 in every other entry. *)
Theorem identityMat_entries D r c :
  get (identityMat (P:=P) D) r c = if (r == c) && (r < D) then s1 else s0.
Proof. exact: get_identityMat. Qed.

End Swaps.

(** ** The product with the identity *)

Section MulIdentity.

Context {P : Type} {SP : Scalar P}.

Variable fin : P -> bool.
Hypothesis exact : exact_on SP fin.
Hypothesis exact_add0r : forall x, fin x -> sadd s0 x = x.

(** A sum whose terms are zero except for the one of index [i]. *)
Lemma single_term_sum (f : nat -> P) n i :
  i < n -> fin (f i) -> (forall k, k < n -> k != i -> f k = s0) ->
  foldl (fun acc k => sadd acc (f k)) s0 (iota 0 n) = f i.
Proof.
move=> ltin fini zero.
pose I (k : nat) (x : P) := x = if i < k then f i else @s0 P SP.
have: I n (foldl (fun acc k => sadd acc (f k)) s0 (iota 0 n)).
  apply: (@loop_ind _ I) => [//|k x ltkn ->].
  rewrite /I [i < k.+1]ltnS [i <= k]leq_eqVlt.
  case: (ltngtP i k) => [ltik|ltki|eik] /=.
  - by rewrite (zero k ltkn) ?(gtn_eqF ltik) // (exact_addr0 exact).
  - rewrite (zero k ltkn) ?(ltn_eqF ltki) // (exact_addr0 exact) //.
    exact: fin_s0 exact.
  - by rewrite -eik exact_add0r.
by rewrite /I ltin.
Qed.

(** X6: in exact arithmetic the product of the identity matrix with a matrix
    [A] of finite entries, from the left and from the right, has the entries
    of [A]. *)
Theorem mmul_identity R C (A : @mat P) r c :
  (forall i j, i < R -> j < C -> fin (get A i j)) ->
  r < R -> c < C ->
  get (mmul R R C (identityMat R) A) r c = get A r c /\
  get (mmul R C C A (identityMat C)) r c = get A r c.
Proof.
move=> finA ltrR ltcC; rewrite !get_mmul //.
have finrc := finA r c ltrR ltcC.
have mulr1 x : fin x -> smul x s1 = x.
  by move=> finx; rewrite (exact_mulC exact) ?(exact_mul1 exact) ?(fin_s1 exact).
have mulr0 x : fin x -> smul x s0 = s0.
  by move=> finx; rewrite (exact_mulC exact) ?(exact_mul0 exact) ?(fin_s0 exact).
pose f k := @smul P SP (@get P SP (@identityMat P SP R) r k) (@get P SP A k c).
pose g k := @smul P SP (@get P SP A r k) (@get P SP (@identityMat P SP C) k c).
have fr : f r = get A r c.
  by rewrite /f get_identityMat eqxx ltrR (exact_mul1 exact).
have gc : g c = get A r c by rewrite /g get_identityMat eqxx ltcC mulr1.
have f0 k : k < R -> k != r -> f k = s0.
  move=> ltkR nkr; rewrite /f get_identityMat eq_sym (negbTE nkr) /=.
  by rewrite (exact_mul0 exact) // finA.
have g0 k : k < C -> k != c -> g k = s0.
  move=> ltkC nkc; rewrite /g get_identityMat (negbTE nkc) /=.
  by rewrite mulr0 // finA.
have finfr : fin (f r) by rewrite fr.
have fingc : fin (g c) by rewrite gc.
by rewrite -/f -/g (single_term_sum ltrR finfr f0) (single_term_sum ltcC fingc g0).
Qed.

End MulIdentity.

(** ** The recurrences of the decomposition *)

Section LURecurrence.

Context {P : Type} {SP : Scalar P}.

(** X7: every entry of the factors that [luDecomposition] returns satisfies
    the recurrence by which it was assigned, read in the factors returned:
    [U[r][c]] is [A[r][c]] minus the sum of [U[k][c] * L[r][k]] over
    [k < r] on and above the diagonal, and [L[r][c]] is [A[r][c]] minus that
    sum over [k < c], divided by [U[c][c]], below it.  No entry is assigned
    before an entry it is computed from. *)
Theorem luDecomposition_recurrence D (A : @mat P) r c :
  r < D -> c < D ->
  let L := (luDecomposition D A).1 in
  let U := (luDecomposition D A).2 in
  (r <= c -> get U r c = ssub (get A r c) (lu_sum L U r c r)) /\
  (c < r ->
     get L r c = sdiv (ssub (get A r c) (lu_sum L U r c c)) (get U c c)).
Proof.
move=> ltrD ltcD L U.
have := @lu_upto_luDecomposition P SP D A r c ltrD ltcD.
rewrite /lu_own /lu_val -/L -/U.
by case: (leqP r c) => [lerc|ltcr] own; split=> //; rewrite ltnNge lerc.
Qed.

End LURecurrence.

(** ** When pivot swaps *)

Section PivotSwaps.

Context {P : Type} {SP : Scalar P}.

Hypothesis abs_gt_irrefl : forall x : P, abs_gt x x = false.
Hypothesis abs_gt_trans :
  forall x y z : P, abs_gt x y -> abs_gt y z -> abs_gt x z.

(** X8: in the matrix that [pivot] leaves, no entry of a column from the
    diagonal down exceeds the diagonal entry of the column in absolute
    value. *)
Theorem pivot_diagonal_maximal R C (m : @mat P) c r :
  c < C -> c <= r < R ->
  ~~ abs_gt (get (pivot R C m).1 r c) (get (pivot R C m).1 c c).
Proof. exact: (pivoted_pivot abs_gt_irrefl abs_gt_trans). Qed.

Lemma pivot_swaps_prefix_nil R C (m : @mat P) k j :
  pivot_swaps R C m (k + j) = [::] -> pivot_swaps R C m k = [::].
Proof.
elim: j => [|j IH]; first by rewrite addn0.
rewrite addnS pivot_swapsS; case: ifP => // _.
by case: (pivot_swaps R C m (k + j)).
Qed.

Lemma pivot_no_swap_scan R C (m : @mat P) k :
  k <= C -> pivot_swaps R C m C = [::] ->
  pivot_upto R C m k = (m, 1%Z) /\
  forall c, c < k -> pivot_scan R m c = c.
Proof.
move=> lekC nil; elim: k lekC => [//|k IH] ltkC.
case: (IH (ltnW ltkC)) => upto scans.
have: pivot_swaps R C m k.+1 = [::].
  by apply: (@pivot_swaps_prefix_nil _ _ _ _ (C - k.+1)); rewrite subnKC.
rewrite pivot_swapsS pivot_uptoS /pivot_step upto /=.
case: eqP => [scan _|_]; last by case: (pivot_swaps R C m k).
split=> // c; rewrite ltnS leq_eqVlt => /orP [/eqP -> //|].
exact: scans.
Qed.

(** X9: [pivot] swaps no rows exactly when no entry of a column from the
    diagonal down exceeds the diagonal entry of the column in absolute
    value; it then leaves the matrix as it is and returns 1. *)
Theorem pivot_no_swap_iff R C (m : @mat P) :
  (pivot_swaps R C m C = [::] <->
   forall c r, c < C -> c <= r < R -> ~~ abs_gt (get m r c) (get m c c)) /\
  (pivot_swaps R C m C = [::] -> pivot R C m = (m, 1%Z)).
Proof.
split; last first.
  by move=> nil; case: (pivot_no_swap_scan (leqnn C) nil).
split=> [nil c r ltcC rng|piv].
  case: (pivot_no_swap_scan (leqnn C) nil) => _ scans.
  by rewrite -{2}(scans c ltcC); apply: pivot_scan_max.
exact: (pivot_swaps_fixed (m:=m) piv (leqnn C)).
Qed.

End PivotSwaps.

(** ** The shape of the matrices *)

Section Shapes.

Context {P : Type} {SP : Scalar P}.

Lemma shaped_put R C (m : @mat P) r c v :
  shaped R C m -> r < R -> c < C -> shaped R C (put m r c v).
Proof.
case=> szm szr ltrR ltcC; rewrite /put; split.
  by rewrite size_set_nth szm; apply/maxn_idPr.
move=> r' ltr'R; rewrite nth_set_nth /=.
case: eqP => [_|_]; last exact: szr.
by rewrite size_set_nth szr //; apply/maxn_idPr.
Qed.

Lemma shaped_fill R C (v : P) : shaped R C (fill R C v).
Proof.
split; first by rewrite size_nseq.
by move=> r ltrR; rewrite nth_nseq ltrR size_nseq.
Qed.

Lemma shaped_swapRow R C (m : @mat P) a b :
  shaped R C m -> a < R -> b < R -> shaped R C (swapRow C m a b).
Proof.
move=> sh ltaR ltbR; rewrite /swapRow.
pose I (k : nat) (x : @mat P) := @shaped P R C x.
apply: (@loop_ind _ I) => // k x ltkC shx.
by apply: shaped_put => //; apply: shaped_put.
Qed.

(** Matrices of the same shape with the same entries are equal. *)
Lemma shaped_eq R C (m m' : @mat P) :
  shaped R C m -> shaped R C m' ->
  (forall r c, r < R -> c < C -> get m r c = get m' r c) -> m = m'.
Proof.
case=> szm szr [szm' szr'] entries.
apply: (@eq_from_nth _ [::]); rewrite szm ?szm' // => r ltrR.
apply: (@eq_from_nth _ s0); rewrite szr ?szr' // => c ltcC.
exact: entries.
Qed.

Lemma shaped_pivot_upto R C (m : @mat P) k :
  shaped R C m -> k <= C -> shaped R C (pivot_upto R C m k).1.
Proof.
move=> sh; elim: k => [//|k IH] ltkC.
rewrite pivot_uptoS /pivot_step; case: eqP => [_|/eqP neq] /=.
  exact: IH (ltnW ltkC).
case: (pivot_scan_range R (pivot_upto R C m k).1 k) neq => [->|].
  by rewrite eqxx.
case/andP=> ltkx ltxR _.
apply: shaped_swapRow => //; first exact: IH (ltnW ltkC).
exact: ltn_trans ltkx ltxR.
Qed.

Lemma shaped_luDecomposition D (A : @mat P) :
  shaped D D (luDecomposition D A).1 /\ shaped D D (luDecomposition D A).2.
Proof.
pose I (k : nat) (lu : @mat P * @mat P) :=
  @shaped P D D lu.1 /\ @shaped P D D lu.2.
have: I D (luDecomposition D A).
  apply: (@loop_ind _ I) => [|r lu ltrD shlu].
    split; last exact: shaped_fill.
    pose J (k : nat) (x : @mat P) := @shaped P D D x.
    apply: (@loop_ind _ J) => [|k x ltkD shx]; first exact: shaped_fill.
    exact: shaped_put.
  apply: (@loop_ind _ I) => // c lu' ltcD [shL shU].
  rewrite /I /lu_cell; case: (r <= c) => /=.
    by split=> //; apply: shaped_put.
  by split=> //; apply: shaped_put.
by [].
Qed.

Lemma shaped_mmul RA CA CB (ma mb : @mat P) :
  shaped RA CB (mmul RA CA CB ma mb).
Proof.
rewrite /mmul; split; first by rewrite size_map size_iota.
by move=> r ltr; rewrite (nth_map 0) ?size_iota // size_map size_iota.
Qed.

(** X10: [pivot] and [luDecomposition] keep the dimension: for a [D] x [D]
    matrix the matrix that [pivot] leaves and the factors [L] and [U] of it
    are [D] x [D] matrices. *)
Theorem pivot_luDecomposition_shaped D (A : @mat P) :
  shaped D D A ->
  let PA := (pivot D D A).1 in
  [/\ shaped D D PA, shaped D D (luDecomposition D PA).1
    & shaped D D (luDecomposition D PA).2].
Proof.
move=> sh PA; case: (shaped_luDecomposition D PA) => shL shU.
by split=> //; apply: (shaped_pivot_upto sh (leqnn D)).
Qed.

End Shapes.

(** ** The product of the factors as a matrix *)

Section ProductMatrix.

Context {P : Type} {SP : Scalar P}.

Variable fin : P -> bool.
Hypothesis exact : exact_on SP fin.

(** X11: in exact arithmetic, for a [D] x [D] matrix [A] of finite entries
    the product [L * U] of the factors of the pivoted copy of [A] is the
    pivoted copy, provided that no diagonal entry of [U] but the last is
    zero (the entries that [luDecomposition] divides by). *)
Theorem luDecomposition_product_eq D (A : @mat P) :
  shaped D D A ->
  (forall r c, r < D -> c < D -> fin (get A r c)) ->
  let PA := (pivot D D A).1 in
  let L := (luDecomposition D PA).1 in
  let U := (luDecomposition D PA).2 in
  (forall c, c.+1 < D -> ~~ eq0 (get U c c)) ->
  mmul D D D L U = PA.
Proof.
move=> sh finA PA L U pivots.
apply: (@shaped_eq _ _ D D); first exact: shaped_mmul.
  exact: (shaped_pivot_upto sh (leqnn D)).
exact: (luDecomposition_product exact).
Qed.

End ProductMatrix.

(** ** The reads of refMat and rrefMat *)

Section EchelonBounds.

Context {P : Type} {SP : Scalar P}.

Lemma ref_search_col R C (m : @mat P) r c n :
  match ref_search R C m r c n return Prop with
  | Break _ c1 => c <= c1 < c + n
  | Return => True
  | Exit c1 => c1 = c + n
  end.
Proof.
elim: n c => [|n IH] c /=; first by rewrite addn0.
case: ifP => _; first by rewrite leqnn -addn1 leq_add2l.
case: ifP => // _; move: (IH c.+1).
case: (ref_search R C m r c.+1 n) => [m1 c1| |c1] //; rewrite addSnnS //.
by case/andP => /ltnW -> ->.
Qed.

Lemma ref_rows_out_of_range R C (m : @mat P) r c n r' c' :
  c <= C -> r + n = R -> ref_rows R C m r c n = OutOfRange r' c' ->
  r' < R /\ c' = C.
Proof.
elim: n m r c => [|n IH] m r c lecC rn //=.
have ltrR : r < R by rewrite -rn -addn1 leq_add2l.
have := ref_search_col R C m r c (C - c); rewrite (subnKC lecC).
case: (ref_search R C m r c (C - c)) => [m1 c1| |c1] //.
  case/andP=> _ ltc1C; rewrite /ref_reduce /rd ltrR ltc1C /=.
  by apply: IH => //; rewrite addSnnS.
by move=> ->; rewrite /ref_reduce /rd ltnn andbF => -[<- <-].
Qed.

Lemma rref_lead_le (m : @mat P) r c n : rref_lead m r c n <= c + n.
Proof.
elim: n c => [|n IH] c /=; first by rewrite addn0.
by case: ifP => _; rewrite ?leq_addr // -addSnnS.
Qed.

Lemma rrefMat_error (rs : seq nat) R C r c :
  foldl (fun o r => bind o (fun m => rref_row R C m r)) (OutOfRange r c) rs
    = OutOfRange r c.
Proof. by elim: rs. Qed.

(** X12: the first read of [refMat] or of [rrefMat] outside of the matrix,
    when there is one, is a read of [m[r][C]], the entry after the end of
    an existing row [r].  The outcome [OutOfRange] is that first read; what
    the loops read after it is not described. *)
Theorem echelon_out_of_range R C (m : @mat P) r c :
  (refMat R C m = OutOfRange r c -> r < R /\ c = C) /\
  (rrefMat R C m = OutOfRange r c -> r < R /\ c = C).
Proof.
have ref : forall r c, refMat R C m = OutOfRange r c -> r < R /\ c = C.
  by move=> r0 c0; apply: ref_rows_out_of_range.
split; first exact: ref.
rewrite /rrefMat.
have rows : all (fun i => i < R) (rev (iota 0 R)).
  by apply/allP => i; rewrite mem_rev mem_iota.
elim: (rev (iota 0 R)) (refMat R C m) ref rows => [|i rs IH] o ref /=.
  by move=> _; apply: ref.
case/andP=> ltiR rows; apply: IH => // r0 c0.
case: o ref => [m1|r1 c1] ref /=; last exact: ref.
rewrite /rref_row /rd ltiR /=; case: ifP => [_|ltC [<- <-]].
  by case: ifP.
split=> //; apply/eqP; rewrite eqn_leq -{2}[C]add0n rref_lead_le /=.
by rewrite leqNgt ltC.
Qed.

(** X13: when the last row of the matrix that [refMat] leaves has no nonzero
    entry, [rrefMat] reads [m[R - 1][C]], outside of the matrix. *)
Theorem rrefMat_zero_last_row R C (m m' : @mat P) :
  0 < R -> refMat R C m = Done m' ->
  (forall k, k < C -> eq0 (get m' R.-1 k)) ->
  rrefMat R C m = OutOfRange R.-1 C.
Proof.
case: R => [//|R] _ ref zero; rewrite /rrefMat ref.
have -> : iota 0 R.+1 = rcons (iota 0 R) R.
  by rewrite -cats1 -addn1 iotaD add0n.
by rewrite rev_rcons /= rref_row_zero_row //; apply: rrefMat_error.
Qed.

End EchelonBounds.

(** ** The further results at the scalar type [xq] *)

Lemma xq_add0r (x : xq) : xq_fin x -> sadd s0 x = x.
Proof. by case: x => [a|s|] //= _; rewrite Qcplus_0_l. Qed.

Lemma shaped_inverse_a : shaped 5 5 inverse_a.
Proof. by split=> //; do 5![case=> //]. Defined.

(** Two swaps of the matrix of the test [lu]. *)
Lemma swapRow_swapCol_commute_xq :
  get (swapCol 3 (swapRow 3 lu_a 0 1) 1 2) 0 1 =
  get (swapRow 3 (swapCol 3 lu_a 1 2) 0 1) 0 1.
Proof.
exact (@swapRow_swapCol_commute xq xq_scalar 3 3 lu_a 0 1 1 2 0 1
         isT isT isT isT isT isT).
Defined.

(** The products of the invertible matrix of the test [inverse] with the
    identity. *)
Lemma mmul_identity_xq :
  get (mmul 5 5 5 (identityMat 5) inverse_a) 1 2 = get inverse_a 1 2 /\
  get (mmul 5 5 5 inverse_a (identityMat 5)) 1 2 = get inverse_a 1 2.
Proof.
exact (@mmul_identity xq xq_scalar xq_fin xq_exact xq_add0r 5 5 inverse_a 1 2
         (fun i j _ _ => zmat_fin _ i j) isT isT).
Defined.

(** The first column of the pivoted matrix of the test [inverse]. *)
Lemma pivot_diagonal_maximal_xq :
  ~~ abs_gt (get (pivot 5 5 inverse_a).1 3 0) (get (pivot 5 5 inverse_a).1 0 0).
Proof.
exact (@pivot_diagonal_maximal xq xq_scalar xq_abs_gt_irrefl xq_abs_gt_trans
         5 5 inverse_a 0 3 isT isT).
Defined.

(** The swaps of the matrix of the test [lu], which has none. *)
Lemma pivot_no_swap_iff_xq :
  (pivot_swaps 3 3 lu_a 3 = [::] <->
   forall c r, c < 3 -> c <= r < 3 -> ~~ abs_gt (get lu_a r c) (get lu_a c c)) /\
  (pivot_swaps 3 3 lu_a 3 = [::] -> pivot 3 3 lu_a = (lu_a, 1%Z)).
Proof.
exact (@pivot_no_swap_iff xq xq_scalar xq_abs_gt_irrefl xq_abs_gt_trans
         3 3 lu_a).
Defined.

(** The shapes for the invertible matrix of the test [inverse]. *)
Lemma pivot_luDecomposition_shaped_xq :
  let PA := (pivot 5 5 inverse_a).1 in
  [/\ shaped 5 5 PA, shaped 5 5 (luDecomposition 5 PA).1
    & shaped 5 5 (luDecomposition 5 PA).2].
Proof. exact (@pivot_luDecomposition_shaped xq xq_scalar 5 inverse_a shaped_inverse_a). Defined.

Lemma pivots_inverse_a c :
  c.+1 < 5 ->
  ~~ eq0 (get (luDecomposition 5 (pivot 5 5 inverse_a).1).2 c c).
Proof. by do 4![case: c => [_|c]; first by vm_compute]. Defined.

(** The product of the factors of the invertible matrix of the test
    [inverse]. *)
Lemma luDecomposition_product_eq_xq :
  let PA := (pivot 5 5 inverse_a).1 in
  mmul 5 5 5 (luDecomposition 5 PA).1 (luDecomposition 5 PA).2 = PA.
Proof.
exact (@luDecomposition_product_eq xq xq_scalar xq_fin xq_exact 5 inverse_a
         shaped_inverse_a (fun r c _ _ => zmat_fin _ r c) pivots_inverse_a).
Defined.

(** The matrix of rank one, whose echelon form has a last row of zeros. *)
Lemma rrefMat_zero_last_row_xq : rrefMat 2 2 rank1 = OutOfRange 1 2.
Proof.
apply: (@rrefMat_zero_last_row xq xq_scalar 2 2 rank1
          (zmat [:: [:: 1; 2]; [:: 0; 0]]%Z)) => //.
  by apply: outcome_eqb_eq; vm_compute.
by do 2![case=> [_|]; first by vm_compute].
Defined.

(** The recurrences in the factors of the matrix of the test [lu]. *)
Lemma luDecomposition_recurrence_xq :
  let L := (luDecomposition 3 lu_a).1 in
  let U := (luDecomposition 3 lu_a).2 in
  (1 <= 2 -> get U 1 2 = ssub (get lu_a 1 2) (lu_sum L U 1 2 1)) /\
  (2 < 1 ->
     get L 1 2 = sdiv (ssub (get lu_a 1 2) (lu_sum L U 1 2 2)) (get U 2 2)).
Proof. exact (@luDecomposition_recurrence xq xq_scalar 3 lu_a 1 2 isT isT). Defined.

(** ** Row echelon form *)

Section RowOps.

Context {P : Type} {SP : Scalar P}.

Lemma get_set_row (m : @mat P) r v r' c' :
  get (set_row m r v) r' c' = if r' == r then nth s0 v c' else get m r' c'.
Proof. by rewrite /get /set_row nth_set_nth /=; case: (r' == r). Qed.

Lemma nth_vec_div (v : @vec P) x c :
  c < size v -> nth s0 (vec_div v x) c = sdiv (nth s0 v c) x.
Proof. by move=> ltc; rewrite /vec_div (nth_map s0). Qed.

Lemma nth_vec_scale (v : @vec P) x c :
  c < size v -> nth s0 (vec_scale x v) c = smul x (nth s0 v c).
Proof. by move=> ltc; rewrite /vec_scale (nth_map s0). Qed.

Lemma nth_vec_sub (v w : @vec P) c :
  size v = size w -> c < size v ->
  nth s0 (vec_sub v w) c = ssub (nth s0 v c) (nth s0 w c).
Proof.
move=> sz ltc; rewrite /vec_sub (nth_map (s0, s0)) ?nth_zip //.
by rewrite size_zip -sz minnn.
Qed.

Lemma shaped_set_row R C (m : @mat P) r v :
  shaped R C m -> r < R -> size v = C -> shaped R C (set_row m r v).
Proof.
case=> szm szr ltrR szv; rewrite /set_row; split.
  by rewrite size_set_nth szm; apply/maxn_idPr.
move=> r' ltr'R; rewrite nth_set_nth /=.
by case: eqP => [_|_] //; apply: szr.
Qed.

Lemma size_row R C (m : @mat P) r : shaped R C m -> r < R -> size (row m r) = C.
Proof. by case=> _ szr ltrR; apply: szr. Qed.

(** The elimination below row [r] in terms of the matrix it starts from. *)
Lemma ref_elim_spec R C (m : @mat P) r c :
  shaped R C m -> r < R -> c < C ->
  shaped R C (ref_elim R m r c) /\
  forall r' c', r' < R -> c' < C ->
    get (ref_elim R m r c) r' c' =
      if (r < r') && ~~ eq0 (get m r' c)
      then ssub (get m r' c')
                (smul (sdiv (get m r' c) (get m r c)) (get m r c'))
      else get m r' c'.
Proof.
move=> sh ltrR ltcC; rewrite /ref_elim.
pose I (k : nat) (x : @mat P) :=
  @shaped P R C x /\
  forall r' c', r' < R -> c' < C ->
    @get P SP x r' c' =
      if (r < r' < k) && ~~ @eq0 P SP (@get P SP m r' c)
      then @ssub P SP (@get P SP m r' c')
             (@smul P SP (@sdiv P SP (@get P SP m r' c) (@get P SP m r c))
                         (@get P SP m r c'))
      else @get P SP m r' c'.
have: I (r.+1 + (R - r.+1))
        (foldl (fun m r2 =>
                  if ~~ eq0 (get m r2 c)
                  then set_row m r2
                         (vec_sub (row m r2)
                            (vec_scale (sdiv (get m r2 c) (get m r c))
                                       (row m r)))
                  else m)
               m (iota r.+1 (R - r.+1))).
  apply: (@loop_from_ind _ I) => [|k x /andP [ltrk ltk] [shx entries]].
    split=> // r' c' _ _.
    by rewrite ltnS; case: (ltnP r r') => // ltrr'; rewrite leqNgt ltrr'.
  have ltkR : k < R by rewrite subnKC in ltk.
  have getk : get x k c = get m k c.
    by rewrite entries // ltnn andbF.
  have getr c' : c' < C -> get x r c' = get m r c'.
    by move=> ltc'; rewrite entries // ltnn.
  rewrite getk; case: ifP => [nz|z]; last first.
    split=> // r' c' ltr' ltc'; rewrite entries // ltnS [r' <= k]leq_eqVlt.
    case: (r' =P k) => [->|_] //=.
    by rewrite ltnn z !andbF.
  have szk : size (row x k) = C by apply: size_row shx ltkR.
  have szr : size (row x r) = C by apply: size_row shx ltrR.
  split=> [|r' c' ltr' ltc'].
    apply: shaped_set_row => //.
    by rewrite /vec_sub size_map size_zip /vec_scale size_map szk szr minnn.
  rewrite get_set_row ltnS [r' <= k]leq_eqVlt.
  case: (r' =P k) => [->|_] /=; last by rewrite entries.
  have szs f : size (vec_scale f (row x r)) = C.
    by rewrite /vec_scale size_map.
  have e1 f : size (row x k) = size (vec_scale f (row x r)) by rewrite szk szs.
  have l1 : c' < size (row x k) by rewrite szk.
  have l2 : c' < size (row x r) by rewrite szr.
  rewrite ltrk nz /= (nth_vec_sub (e1 _) l1) (nth_vec_scale _ l2).
  rewrite -/(get x k c') -/(get x r c') !getr // entries //.
  by rewrite ltnn andbF.
rewrite subnKC // => -[shx entries]; split=> // r' c' ltr' ltc'.
by rewrite entries // ltr' andbT.
Qed.

End RowOps.

Section Lead.

Context {P : Type} {SP : Scalar P}.

Lemma rref_lead_first (m : @mat P) r c n c1 :
  c <= c1 < c + n -> (forall k, c <= k < c1 -> eq0 (get m r k)) ->
  ~~ eq0 (get m r c1) -> rref_lead m r c n = c1.
Proof.
elim: n c => [|n IH] c /=.
  by rewrite addn0 => /andP [lec /(leq_ltn_trans lec)]; rewrite ltnn.
case/andP; rewrite leq_eqVlt => /orP [/eqP <- _ _ ->//|ltcc1 ltc1 zero nz].
have -> /= : eq0 (get m r c) by apply: zero; rewrite leqnn.
apply: IH => //; first by rewrite ltcc1 addSnnS.
by move=> k /andP [ltck ltkc1]; apply: zero; rewrite (ltnW ltck).
Qed.

Lemma rref_lead_ext (m m' : @mat P) r r' c n :
  (forall k, c <= k < c + n -> get m' r' k = get m r k) ->
  rref_lead m' r' c n = rref_lead m r c n.
Proof.
elim: n c => [//|n IH] c same /=.
have -> : get m' r' c = get m r c.
  by apply: same; rewrite leqnn /= addnS ltnS leq_addr.
case: ifP => // _; apply: IH => k /andP [ltck ltk].
by apply: same; rewrite (ltnW ltck) -addSnnS.
Qed.

Lemma rref_lead_zero_before (m : @mat P) r c n k :
  c <= k < rref_lead m r c n -> eq0 (get m r k).
Proof.
elim: n c => [|n IH] c /=.
  by case/andP=> lec /(leq_ltn_trans lec); rewrite ltnn.
case: ifP => [_|/negbFE z].
  by case/andP=> lec /(leq_ltn_trans lec); rewrite ltnn.
case/andP; rewrite leq_eqVlt => /orP [/eqP <- //|ltck ltk].
by apply: (IH c.+1); rewrite ltck.
Qed.

Lemma rref_lead_nonzero (m : @mat P) r c n :
  rref_lead m r c n < c + n -> ~~ eq0 (get m r (rref_lead m r c n)).
Proof.
elim: n c => [|n IH] c /=; first by rewrite addn0 ltnn.
by case: ifP => [->//|_]; rewrite -addSnnS; apply: IH.
Qed.

Lemma lead_first C (m : @mat P) r c1 :
  c1 < C -> (forall k, k < c1 -> eq0 (get m r k)) -> ~~ eq0 (get m r c1) ->
  lead C m r = c1.
Proof.
by move=> ltc1 zero nz; apply: rref_lead_first.
Qed.

Lemma lead_zero C (m : @mat P) r :
  (forall k, k < C -> eq0 (get m r k)) -> lead C m r = C.
Proof.
by move=> zero; rewrite /lead rref_lead_zero_row.
Qed.

Lemma lead_ext C (m m' : @mat P) r r' :
  (forall k, k < C -> get m' r' k = get m r k) -> lead C m' r' = lead C m r.
Proof. by move=> same; apply: rref_lead_ext => k /andP [_]; apply: same. Qed.

End Lead.

Section EchelonForm.

Context {P : Type} {SP : Scalar P}.

Variable fin : P -> bool.
Hypothesis laws : echelon_laws fin.

Variables R C : nat.

Let exact : exact_on SP fin := ech_exact laws.

Let mulr1 (x : P) : fin x -> smul x s1 = x.
Proof.
by move=> finx; rewrite (exact_mulC exact) ?(exact_mul1 exact) ?(fin_s1 exact).
Qed.

Let mulr0 (x : P) : fin x -> smul x s0 = s0.
Proof.
by move=> finx; rewrite (exact_mulC exact) ?(exact_mul0 exact) ?(fin_s0 exact).
Qed.

(** The row that the search of [refMat] selects holds an entry of the column
    that no entry from row [r] down exceeds. *)
Lemma ref_scan_spec (m : @mat P) r c :
  r < R ->
  r <= ref_scan R m r c < R /\
  forall r2, r <= r2 < R ->
    ~~ abs_gt (get m r2 c) (get m (ref_scan R m r c) c).
Proof.
move=> ltrR; rewrite /ref_scan.
pose I (k x : nat) :=
  r <= x < k /\
  forall r2, r <= r2 < k ->
    ~~ @abs_gt P SP (@get P SP m r2 c) (@get P SP m x c).
have: I (r.+1 + (R - r.+1))
        (foldl (fun maxR r2 =>
                  if abs_gt (get m r2 c) (get m maxR c) then r2 else maxR)
               r (iota r.+1 (R - r.+1))).
  apply: (@loop_from_ind _ I) => [|k x /andP [ltrk _] [/andP [lerx ltxk] maxx]].
    split=> [|r2]; first by rewrite leqnn ltnSn.
    by rewrite ltnS -eqn_leq => /eqP <-; rewrite (ech_abs_irrefl laws).
  case: ifP => [gtk|ngt]; split.
  - by rewrite (ltnW ltrk) ltnSn.
  - move=> r2 /andP [ler2]; rewrite ltnS leq_eqVlt => /orP [/eqP ->|ltr2k].
      by rewrite (ech_abs_irrefl laws).
    have := maxx r2; rewrite ler2 ltr2k => /(_ isT); apply: contra => gtr.
    exact: (ech_abs_trans laws) gtr gtk.
  - by rewrite lerx ltnS (ltnW ltxk).
  - move=> r2 /andP [ler2]; rewrite ltnS leq_eqVlt => /orP [/eqP ->|ltr2k].
      by rewrite ngt.
    by apply: maxx; rewrite ler2.
by rewrite subnKC.
Qed.

(** How the search of [refMat] ends: with a pivot in a column [c1] whose
    entries from row [r] down are zero in the columns before [c1], or with
    zeros in all the rows from [r] down. *)
Lemma ref_search_spec (m : @mat P) r c n :
  r < R -> c + n = C -> finite_mat fin R C m ->
  (forall r2 c2, r <= r2 -> r2 < R -> c2 < c -> get m r2 c2 = s0) ->
  match ref_search R C m r c n return Prop with
  | Break m1 c1 =>
      [/\ c <= c1 < C,
          forall r2 c2, r <= r2 -> r2 < R -> c2 < c1 -> get m r2 c2 = s0
        & exists maxR,
            [/\ r <= maxR < R, ~~ eq0 (get m maxR c1)
              & m1 = if r != maxR then swapRow C m r maxR else m]]
  | Return => forall r2 c2, r <= r2 -> r2 < R -> c2 < C -> get m r2 c2 = s0
  | Exit c1 => n = 0
  end.
Proof.
move=> ltrR; elim: n c => [//|n IH] c cn finm zeros /=.
have ltcC : c < C by rewrite -cn addnS ltnS leq_addr.
case: (ref_scan_spec m c ltrR) => rng maxx.
case: ifP => [nz|/negbFE z].
  split=> //; first by rewrite leqnn.
  by exists (ref_scan R m r c).
have zx : get m (ref_scan R m r c) c = s0.
  apply: (ech_eq0_eq laws) z; apply: finm => //.
  by case/andP: rng.
have colz r2 : r <= r2 -> r2 < R -> get m r2 c = s0.
  move=> ler2 ltr2; apply: (ech_abs0 laws); first exact: finm.
  by rewrite -zx; apply: maxx; rewrite ler2.
have zeros' r2 c2 : r <= r2 -> r2 < R -> c2 < c.+1 -> get m r2 c2 = s0.
  move=> ler2 ltr2; rewrite ltnS leq_eqVlt => /orP [/eqP ->|].
    exact: colz.
  exact: zeros.
case: eqP => [ec|nec].
  move=> r2 c2 ler2 ltr2 ltc2; apply: zeros' => //.
  by rewrite ec subn1 prednK //; apply: leq_ltn_trans ltcC.
have cn' : c.+1 + n = C by rewrite addSnnS.
have := IH c.+1 cn' finm zeros'.
case: (ref_search R C m r c.+1 n) => [m1 c1| |c1] //.
  case=> /andP [ltcc1 ltc1] z1 ex; split=> //.
  by rewrite (ltnW ltcc1).
by move=> n0; case: nec; rewrite -cn n0 addn1 subn1.
Qed.

(** An iteration of the outer loop of [refMat] that has found a pivot. *)
Lemma ref_step (m : @mat P) r c c1 maxR :
  ref_inv fin R C m r c -> r < R -> c <= c1 < C ->
  (forall r2 c2, r <= r2 -> r2 < R -> c2 < c1 -> get m r2 c2 = s0) ->
  r <= maxR < R -> ~~ eq0 (get m maxR c1) ->
  let m1 := if r != maxR then swapRow C m r maxR else m in
  let m2 := set_row m1 r (vec_div (row m1 r) (get m1 r c1)) in
  ref_inv fin R C (ref_elim R m2 r c1) r.+1 c1.+1.
Proof.
move=> [sh finm leads incr _] ltrR /andP [lecc1 ltc1C] zeros.
move=> /andP [lerx ltxR] nz m1 m2.
have shm1 : shaped R C m1.
  by rewrite /m1; case: ifP => // _; apply: shaped_swapRow.
have getm1 r' c' : c' < C -> get m1 r' c' = get m (swapn r maxR r') c'.
  move=> ltc'; rewrite /m1; case: (r =P maxR) => [<-|_] /=.
    by rewrite /swapn; case: eqP => [->|].
  by rewrite get_swapRow ltc'.
have swr : swapn r maxR r = maxR by rewrite /swapn eqxx.
have sw_lt r1 : r1 < r -> swapn r maxR r1 = r1.
  move=> ltr1; rewrite /swapn (ltn_eqF ltr1).
  by rewrite (ltn_eqF (leq_trans ltr1 lerx)).
have sw_R r' : r' < R -> swapn r maxR r' < R.
  by move=> ltr'; rewrite /swapn; case: ifP => // _; case: ifP.
have sw_ge r2 : r <= r2 -> r <= swapn r maxR r2.
  by move=> ler2; rewrite /swapn; case: ifP => // _; case: ifP.
have finm1 r' c' : r' < R -> c' < C -> fin (get m1 r' c').
  by move=> ltr' ltc'; rewrite getm1 //; apply: finm => //; apply: sw_R.
set x := get m1 r c1 in m2 *.
have xE : x = get m maxR c1 by rewrite /x getm1 // swr.
have finx : fin x by rewrite xE; apply: finm.
have nzx : ~~ eq0 x by rewrite xE.
have shm2 : shaped R C m2.
  apply: shaped_set_row => //.
  by rewrite /vec_div size_map (size_row shm1).
have getm2 r' c' : r' < R -> c' < C ->
    get m2 r' c' = if r' == r then sdiv (get m1 r c') x else get m1 r' c'.
  move=> ltr' ltc'; rewrite get_set_row; case: eqP => // _.
  by rewrite nth_vec_div ?(size_row shm1).
have m2r_lt c' : c' < c1 -> get m2 r c' = s0.
  move=> ltc'; have ltc'C := ltn_trans ltc' ltc1C.
  rewrite getm2 // eqxx getm1 // swr zeros //.
  exact: (ech_div0 laws).
have m2r_c1 : get m2 r c1 = s1.
  by rewrite getm2 // eqxx; apply: (ech_divxx laws).
have m2_ne r' c' : r' < R -> c' < C -> r' != r ->
    get m2 r' c' = get m (swapn r maxR r') c'.
  by move=> ltr' ltc' /negbTE ne; rewrite getm2 // ne getm1.
have m2_gt_lt r2 c' : r < r2 -> r2 < R -> c' < c1 -> get m2 r2 c' = s0.
  move=> ltr2 ltr2R ltc'; have ltc'C := ltn_trans ltc' ltc1C.
  rewrite m2_ne ?(gtn_eqF ltr2) // zeros //; first exact: sw_ge (ltnW ltr2).
  exact: sw_R.
have m2_lt r1 c' : r1 < r -> c' < C -> get m2 r1 c' = get m r1 c'.
  move=> ltr1 ltc'.
  by rewrite m2_ne ?(ltn_eqF ltr1) ?sw_lt //; apply: ltn_trans ltr1 ltrR.
have finm2 : finite_mat fin R C m2.
  move=> r' c' ltr' ltc'; rewrite getm2 //; case: ifP => _; last exact: finm1.
  by apply: (fin_div exact) => //; apply: finm1.
case: (ref_elim_spec shm2 ltrR ltc1C) => shm3 getm3.
have m3_le r' c' : r' <= r -> r' < R -> c' < C ->
    get (ref_elim R m2 r c1) r' c' = get m2 r' c'.
  by move=> ler' ltr' ltc'; rewrite getm3 // ltnNge ler'.
have fin1 : fin (get m2 r c1) by rewrite m2r_c1; apply: fin_s1 exact.
have m3_gt r2 c' : r < r2 -> r2 < R -> c' <= c1 ->
    get (ref_elim R m2 r c1) r2 c' = s0.
  move=> ltr2 ltr2R lec'; have ltc'C := leq_ltn_trans lec' ltc1C.
  have finy : fin (get m2 r2 c1) by apply: finm2.
  rewrite getm3 // ltr2 /=; case: ifP => [nzy|/negbFE zy].
    rewrite m2r_c1 (ech_divx1 laws finy).
    move: lec'; rewrite leq_eqVlt => /orP [/eqP ->|ltc'].
      by rewrite m2r_c1 mulr1 // (ech_subxx laws).
    rewrite m2_gt_lt // m2r_lt // mulr0 // (ech_subxx laws) //.
    exact: fin_s0 exact.
  move: lec'; rewrite leq_eqVlt => /orP [/eqP ->|ltc'].
    exact: (ech_eq0_eq laws) zy.
  exact: m2_gt_lt.
have finm3 : finite_mat fin R C (ref_elim R m2 r c1).
  move=> r' c' ltr' ltc'; rewrite getm3 //; case: ifP => _; last exact: finm2.
  apply: (fin_sub exact); first exact: finm2.
  apply: (fin_mul exact); last exact: finm2.
  apply: (fin_div exact) => //; first exact: finm2.
  by rewrite m2r_c1 (ech_neq0_s1 laws).
have lead_r : lead C (ref_elim R m2 r c1) r = c1.
  apply: lead_first => // [k ltk|].
    by rewrite m3_le // ?m2r_lt ?(ech_eq0_s0 laws) //; apply: ltn_trans ltc1C.
  by rewrite m3_le // m2r_c1 (ech_neq0_s1 laws).
have lead_lt r1 : r1 < r -> lead C (ref_elim R m2 r c1) r1 = lead C m r1.
  move=> ltr1; apply: lead_ext => k ltk.
  by rewrite m3_le ?m2_lt // ?(ltnW ltr1) //; apply: ltn_trans ltr1 ltrR.
split=> // [r1|r1 r2 lt12].
- rewrite ltnS leq_eqVlt => /orP [/eqP ->|ltr1].
    by rewrite lead_r ltnSn m3_le // m2r_c1.
  case: (leads r1 ltr1) => ltl val; rewrite lead_lt //.
  have ltlC : lead C m r1 < C.
    by apply: leq_trans ltl _; apply: leq_trans lecc1 (ltnW ltc1C).
  split; first by rewrite ltnS; apply: ltnW; apply: leq_trans ltl lecc1.
  by rewrite m3_le ?m2_lt // ?(ltnW ltr1) //; apply: ltn_trans ltr1 ltrR.
- rewrite ltnS leq_eqVlt => /orP [/eqP er2|ltr2].
    rewrite er2 in lt12 *; rewrite lead_r lead_lt //.
    by case: (leads r1 lt12) => ltl _; apply: leq_trans ltl lecc1.
  rewrite (lead_lt _ ltr2) (lead_lt _ (ltn_trans lt12 ltr2)).
  exact: incr.
Qed.

(** The outer loop of [refMat] ends with a matrix in row echelon form. *)
Lemma ref_rows_echelon n (m : @mat P) r c m' :
  r + n = R -> c <= C -> ref_inv fin R C m r c ->
  ref_rows R C m r c n = Done m' ->
  [/\ shaped R C m', finite_mat fin R C m' & echelon R C m'].
Proof.
elim: n m r c => [|n IH] m r c.
  rewrite addn0 => -> _ [sh finm leads incr _] [<-]; split=> //.
  by split=> [r1 ltr1 _|r1 r2 lt12 ltr2 _]; [case: (leads r1 ltr1) | apply: incr].
move=> rn lecC inv /=.
have ltrR : r < R by rewrite -rn addnS ltnS leq_addr.
case: (inv) => sh finm leads incr zeros.
have := ref_search_spec ltrR (subnKC lecC) finm zeros.
have := @ref_search_col P SP R C m r c (C - c).
case: (ref_search R C m r c (C - c)) => [m1 c1| |c1].
- move=> _ [/andP [lecc1 ltc1C] zeros1 [maxR [rng nz ->]]].
  rewrite /ref_reduce /rd ltrR ltc1C /=; apply: IH; rewrite ?addSnnS //.
  by apply: (ref_step inv ltrR _ zeros1 rng nz); rewrite lecc1.
- move=> _ allz [<-]; split=> //.
  have leadC r2 : r <= r2 -> r2 < R -> lead C m r2 = C.
    move=> ler2 ltr2; apply: lead_zero => k ltk.
    by rewrite allz // (ech_eq0_s0 laws).
  split=> [r1 ltr1 ltl|r1 r2 lt12 ltr2 ltl].
    case: (ltnP r1 r) => [/leads []//|ler1].
    by move: ltl; rewrite leadC // ltnn.
  case: (ltnP r2 r) => [ltr2r|ler2]; first exact: incr.
  by move: ltl; rewrite leadC // ltnn.
- move=> -> _; rewrite (subnKC lecC) /ref_reduce /rd ltnn andbF.
  by [].
Qed.

(** X15: in exact arithmetic, when [refMat] returns for an [R] x [C] matrix
    of finite entries, it leaves an [R] x [C] matrix of finite entries in row
    echelon form: the leading entry of every row that is not zero is 1 and
    lies to the right of the leading entries of the rows above, and the rows
    of zeros are the last ones. *)
Theorem refMat_echelon (m m' : @mat P) :
  shaped R C m -> finite_mat fin R C m -> refMat R C m = Done m' ->
  [/\ shaped R C m', finite_mat fin R C m' & echelon R C m'].
Proof.
by move=> sh finm; apply: ref_rows_echelon.
Qed.

End EchelonForm.

(** The finite values of [xq] obey the laws that the reduction relies on. *)
Lemma qabs_pos (a : Qc) : ~ Qclt (Q2Qc 0) (qabs a) -> a = Q2Qc 0.
Proof.
rewrite /qabs /qneg; case: Qclt_le_dec => [lta0|le0a] /= npos.
  have := Qcopp_le_compat _ _ (Qcnot_lt_le _ _ npos).
  rewrite Qcopp_involutive -[Qcopp (Q2Qc 0)]/(Q2Qc 0) => le0a.
  by case: (Qcle_not_lt _ _ le0a).
by apply: Qcle_antisym => //; apply: Qcnot_lt_le.
Qed.

Lemma xq_echelon_laws : echelon_laws xq_fin.
Proof.
split.
- exact: xq_exact.
- exact: xq_abs_gt_irrefl.
- exact: xq_abs_gt_trans.
- case=> [a|s|] //= _; case: Qclt_le_dec => // le0 _; congr Fin.
  by apply: qabs_pos => /Qclt_not_le; apply.
- by [].
- by case=> [a|s|] //= _ /Qc_eq_bool_correct ->.
- by [].
- case=> [a|s|] //= _ nz; rewrite (negbTE nz); congr Fin.
  by rewrite /Qcdiv Qcmult_inv_r //; apply: qzero_neq.
- case=> [a|s|] //= _ nz; rewrite (negbTE nz); congr Fin.
  by rewrite /Qcdiv Qcmult_0_l.
- case=> [a|s|] //= _; congr Fin.
  by rewrite /Qcdiv -[(/ Q2Qc 1)%Qc]/(Q2Qc 1) Qcmult_1_r.
- by case=> [a|s|] //= _; rewrite Qcplus_opp_r.
Qed.

(** The echelon form of the matrix of the test [echolon]. *)
Lemma shaped_echelon_a : shaped 3 5 echelon_a.
Proof. by split=> //; do 3![case=> //]. Defined.

Lemma refMat_echelon_xq :
  let m' := if refMat 3 5 echelon_a is Done x then x else [::] in
  [/\ shaped 3 5 m', finite_mat xq_fin 3 5 m' & echelon 3 5 m'].
Proof.
apply: (refMat_echelon xq_echelon_laws shaped_echelon_a).
  by move=> r c _ _; apply: zmat_fin.
by apply: outcome_eqb_eq; vm_compute.
Defined.

(** ** Reduced row echelon form *)

Section ReducedForm.

Context {P : Type} {SP : Scalar P}.

Variable fin : P -> bool.
Hypothesis laws : reduced_laws fin.

Variables R C : nat.

Let elaws : echelon_laws fin := red_echelon laws.
Let exact : exact_on SP fin := ech_exact elaws.

Let mulr1 (x : P) : fin x -> smul x s1 = x.
Proof.
by move=> finx; rewrite (exact_mulC exact) ?(exact_mul1 exact) ?(fin_s1 exact).
Qed.

Let mulr0 (x : P) : fin x -> smul x s0 = s0.
Proof.
by move=> finx; rewrite (exact_mulC exact) ?(exact_mul0 exact) ?(fin_s0 exact).
Qed.

(** The elimination above row [r] in terms of the matrix it starts from. *)
Lemma rref_elim_spec (m : @mat P) r c :
  shaped R C m -> r < R -> c < C ->
  shaped R C (rref_elim m r c) /\
  forall r' c', r' < R -> c' < C ->
    get (rref_elim m r c) r' c' =
      if r' < r
      then ssub (get m r' c') (smul (get m r' c) (get m r c'))
      else get m r' c'.
Proof.
move=> sh ltrR ltcC; rewrite /rref_elim.
pose I (k : nat) (x : @mat P) :=
  @shaped P R C x /\
  forall r' c', r' < R -> c' < C ->
    @get P SP x r' c' =
      if r' < k
      then @ssub P SP (@get P SP m r' c')
             (@smul P SP (@get P SP m r' c) (@get P SP m r c'))
      else @get P SP m r' c'.
have: I r (foldl (fun m r2 =>
                  set_row m r2
                    (vec_sub (row m r2) (vec_scale (get m r2 c) (row m r))))
               m (iota 0 r)); last by [].
apply: (@loop_ind _ I) => [|k x ltkr [shx entries]]; first by split.
have ltkR : k < R := ltn_trans ltkr ltrR.
have getk c' : c' < C -> get x k c' = get m k c'.
  by move=> ltc'; rewrite entries // ltnn.
have getr c' : c' < C -> get x r c' = get m r c'.
  by move=> ltc'; rewrite entries // ltnNge (ltnW ltkr).
have szk : size (row x k) = C by apply: size_row shx ltkR.
have szr : size (row x r) = C by apply: size_row shx ltrR.
have szs f : size (vec_scale f (row x r)) = C.
  by rewrite /vec_scale size_map.
split=> [|r' c' ltr' ltc'].
  apply: shaped_set_row => //.
  by rewrite /vec_sub size_map size_zip szs szk minnn.
have e1 f : size (row x k) = size (vec_scale f (row x r)) by rewrite szk szs.
have l1 : c' < size (row x k) by rewrite szk.
have l2 : c' < size (row x r) by rewrite szr.
rewrite get_set_row ltnS [r' <= k]leq_eqVlt.
case: (r' =P k) => [->|_] /=; last by rewrite entries.
rewrite (nth_vec_sub (e1 _) l1) (nth_vec_scale _ l2).
by rewrite -/(get x k c') -/(get x r c') !getk // getr.
Qed.

Lemma lead_same_prefix (m m' : @mat P) r r' :
  lead C m r < C ->
  (forall k, k <= lead C m r -> get m' r' k = get m r k) ->
  lead C m' r' = lead C m r.
Proof.
move=> ltl same; apply: lead_first => // [k ltk|].
  rewrite (same k (ltnW ltk)).
  by apply: (@rref_lead_zero_before _ _ m r 0 C).
by rewrite (same _ (leqnn _)); apply: (@rref_lead_nonzero _ _ m r 0 C).
Qed.

(** The entries before the leading entry of a row are zero. *)
Lemma before_lead (m : @mat P) r k :
  finite_mat fin R C m -> r < R -> k < lead C m r -> get m r k = s0.
Proof.
move=> finm ltrR ltk; apply: (ech_eq0_eq elaws).
  apply: finm => //; apply: leq_trans ltk _.
  by rewrite -[C]add0n; apply: rref_lead_le.
exact: (@rref_lead_zero_before _ _ m r 0 C).
Qed.

(** An iteration of the loop of [rrefMat]. *)
Lemma rref_step (m m3 : @mat P) n :
  n < R -> rref_inv fin R C m n.+1 -> rref_row R C m n = Done m3 ->
  rref_inv fin R C m3 n.
Proof.
move=> ltnR [sh finm [ones incr] leads above]; rewrite /rref_row.
rewrite -/(lead C m n) /rd ltnR /=; case: ifP => // ltcC.
set c := lead C m n in ltcC *.
have one : get m n c = s1 by apply: ones.
rewrite one (negbTE (ech_neq0_s1 elaws)) => -[<-].
set m2 := set_row m n _.
have shm2 : shaped R C m2.
  apply: shaped_set_row => //.
  by rewrite /vec_div size_map (size_row sh).
have getm2 r' c' : r' < R -> c' < C -> get m2 r' c' = get m r' c'.
  move=> ltr' ltc'; rewrite get_set_row; case: eqP => // ->.
  rewrite nth_vec_div ?(size_row sh) // -/(get m n c').
  by apply: (ech_divx1 elaws); apply: finm.
case: (rref_elim_spec shm2 ltnR ltcC) => shm3 getm3.
have get3 r' c' : r' < R -> c' < C ->
    get (rref_elim m2 n c) r' c' =
      if r' < n then ssub (get m r' c') (smul (get m r' c) (get m n c'))
      else get m r' c'.
  by move=> ltr' ltc'; rewrite getm3 // !getm2.
have finm3 : finite_mat fin R C (rref_elim m2 n c).
  move=> r' c' ltr' ltc'; rewrite get3 //; case: ifP => _; last exact: finm.
  apply: (fin_sub exact); first exact: finm.
  by apply: (fin_mul exact); apply: finm.
have sub00 : ssub s0 s0 = (s0 : P).
  by apply: (ech_subxx elaws); apply: fin_s0 exact.
have keep r' c' : r' < n -> c' < C -> get m n c' = s0 ->
    get (rref_elim m2 n c) r' c' = get m r' c'.
  move=> ltr' ltc' z; have ltr'R := ltn_trans ltr' ltnR.
  rewrite get3 // ltr' z mulr0 ?(red_sub0 laws) //; first exact: finm.
  exact: finm.
have lead_lt r' : r' < n -> lead C m r' < c.
  by move=> ltr'; apply: incr.
have same_lead r' : r' < R -> lead C (rref_elim m2 n c) r' = lead C m r'.
  move=> ltr'; case: (ltnP r' n) => [ltr'n|ler'].
    have ltl := lead_lt r' ltr'n.
    apply: lead_same_prefix => [|k lek]; first exact: ltn_trans ltl ltcC.
    have ltkc : k < c := leq_ltn_trans lek ltl.
    apply: keep => //; first exact: ltn_trans ltkc ltcC.
    exact: before_lead.
  by apply: lead_ext => k ltk; rewrite get3 // ltnNge ler'.
have leadsn r2 : n <= r2 -> r2 < R -> lead C m r2 < C.
  by rewrite leq_eqVlt => /orP [/eqP <- //|]; apply: leads.
split=> //.
- split=> [r ltrR|r1 r2 lt12 ltr2R].
    rewrite same_lead // => ltl; case: (ltnP r n) => [ltrn|lern].
      rewrite keep ?ones //; apply: before_lead => //.
      exact: lead_lt.
    by rewrite get3 // ltnNge lern /= ones.
  rewrite (same_lead _ ltr2R) (same_lead _ (ltn_trans lt12 ltr2R)).
  exact: incr.
- by move=> r2 ler2 ltr2; rewrite same_lead //; apply: leadsn.
- move=> r2 r' ler2 ltr2R ltr'; rewrite same_lead //.
  have ltr'R := ltn_trans ltr' ltr2R.
  have ltl2 := leadsn r2 ler2 ltr2R.
  move: ler2; rewrite leq_eqVlt => /orP [/eqP en|ltnr2].
    have finy : fin (get m r' c) by apply: finm.
    rewrite -en in ltr' *.
    by rewrite -/c get3 // ltr' one (mulr1 finy) (ech_subxx elaws finy).
  have finy : fin (get m r' c) by apply: finm.
  case: (ltnP r' n) => [ltr'n|ler'n].
    rewrite get3 // ltr'n (above r2 r' ltnr2 ltr2R ltr').
    by rewrite (above r2 n ltnr2 ltr2R ltnr2) (mulr0 finy).
  by rewrite get3 // ltnNge ler'n /=; apply: above.
Qed.

(** The loop of [rrefMat] from row [n - 1] up. *)
Lemma rref_rows_spec n (m m' : @mat P) :
  n <= R -> rref_inv fin R C m n ->
  foldl (fun o r => bind o (fun m => rref_row R C m r)) (Done m)
        (rev (iota 0 n)) = Done m' ->
  rref_inv fin R C m' 0.
Proof.
elim: n m => [|n IH] m; first by move=> _ inv [<-].
move=> ltnR inv.
have -> : iota 0 n.+1 = rcons (iota 0 n) n.
  by rewrite -cats1 -addn1 iotaD add0n.
rewrite rev_rcons /=; case row_n : (rref_row R C m n) => [m3|r1 c1].
  by apply: IH; [apply: ltnW | apply: rref_step row_n].
by rewrite rrefMat_error.
Qed.

(** X16: in exact arithmetic, when [rrefMat] returns for an [R] x [C] matrix
    of finite entries, it leaves a matrix in reduced row echelon form in
    which no row is zero: every row has a leading entry, which is 1 and lies
    to the right of the leading entries of the rows above, and all the other
    entries of the column of a leading entry are zero. *)
Theorem rrefMat_reduced_echelon (m m' : @mat P) :
  shaped R C m -> finite_mat fin R C m -> rrefMat R C m = Done m' ->
  [/\ shaped R C m', finite_mat fin R C m' & reduced_echelon R C m'].
Proof.
move=> sh finm; rewrite /rrefMat.
case ref : (refMat R C m) => [m1|r1 c1]; last by rewrite rrefMat_error.
case: (refMat_echelon elaws sh finm ref) => sh1 fin1 ech1.
have inv1 : rref_inv fin R C m1 R.
  split=> // [r2 ler2 /(leq_ltn_trans ler2)|r2 r' ler2 /(leq_ltn_trans ler2)].
    by rewrite ltnn.
  by rewrite ltnn.
move/(rref_rows_spec (leqnn R) inv1) => [sh' fin' ech' leads above].
split=> //; split=> // [r ltrR|r r' ltrR ltr'R]; first exact: leads.
rewrite neq_ltn => /orP [ltr'r|ltrr']; first exact: above.
apply: (before_lead fin' ltr'R).
by case: ech' => _; apply=> //; apply: leads.
Qed.

End ReducedForm.

Lemma xq_reduced_laws : reduced_laws xq_fin.
Proof.
split; first exact: xq_echelon_laws.
by case=> [a|s|] //= _; rewrite -[Qcopp (Q2Qc 0)]/(Q2Qc 0) Qcplus_0_r.
Qed.

(** The reduced echelon form of the matrix of the test [echolon]. *)
Lemma rrefMat_reduced_echelon_xq :
  [/\ shaped 3 5 echelon_reduced, finite_mat xq_fin 3 5 echelon_reduced
    & reduced_echelon 3 5 echelon_reduced].
Proof.
apply: (rrefMat_reduced_echelon xq_reduced_laws shaped_echelon_a).
  by move=> r c _ _; apply: zmat_fin.
by apply: outcome_eqb_eq; vm_compute.
Defined.

(** ** The product of a matrix and a vec *)

Section MulVec.

Context {P : Type} {SP : Scalar P}.

Lemma mulvec_spec R C (ma : @mat P) (v : @vec P) :
  size (mulvec R C ma v) = R /\
  forall i, i < R ->
    nth s0 (mulvec R C ma v) i =
      foldl (fun acc k => sadd acc (smul (get ma i k) (nth s0 v k)))
            s0 (iota 0 C).
Proof.
rewrite /mulvec.
pose f i := @weight P SP
  [seq @smul P SP (@get P SP ma i k) (nth (@s0 P SP) v k) | k <- iota 0 C].
pose I (n : nat) (ret : @vec P) :=
  size ret = R /\
  forall i, i < R -> nth (@s0 P SP) ret i = if i < n then f i else @s0 P SP.
have: I R (foldl (fun ret i => set_nth s0 ret i (f i)) (nseq R s0) (iota 0 R)).
  apply: (@loop_ind _ I) => [|n ret ltnR [sz entries]].
    by split=> [|i ltiR]; rewrite ?size_nseq // nth_nseq ltiR.
  split=> [|i ltiR]; first by rewrite size_set_nth sz; apply/maxn_idPr.
  rewrite nth_set_nth /= ltnS [i <= n]leq_eqVlt.
  by case: (i =P n) => [->|_] //=; apply: entries.
case=> sz entries; split=> // i ltiR.
by rewrite entries // ltiR /f /weight weight_map.
Qed.

(** X17: column [c] of the product [ma * mb] of two matrices is the product
    of [ma] with column [c] of [mb] as a vec. *)
Theorem mmul_column RA CA CB (ma mb : @mat P) r c :
  r < RA -> c < CB ->
  get (mmul RA CA CB ma mb) r c =
    nth s0 (mulvec RA CA ma [seq get mb k c | k <- iota 0 CA]) r.
Proof.
move=> ltr ltc; rewrite get_mmul //; case: (mulvec_spec RA CA ma
  [seq get mb k c | k <- iota 0 CA]) => _ -> //.
pose I (n : nat) (x : P) :=
  x = foldl (fun acc k => @sadd P SP acc (@smul P SP (@get P SP ma r k)
               (nth (@s0 P SP) [seq @get P SP mb j c | j <- iota 0 CA] k)))
            (@s0 P SP) (iota 0 n).
apply: (@loop_ind _ I) => [//|n x ltn ->].
rewrite /I -[in RHS]addn1 iotaD foldl_cat /= add0n.
by rewrite (nth_map 0) ?size_iota // nth_iota.
Qed.

End MulVec.

Section MulVecIdentity.

Context {P : Type} {SP : Scalar P}.

Variable fin : P -> bool.
Hypothesis exact : exact_on SP fin.
Hypothesis exact_add0r : forall x, fin x -> sadd s0 x = x.

Lemma mulvec_identity_l D (v : @vec P) :
  size v = D -> (forall i, i < D -> fin (nth s0 v i)) ->
  mulvec D D (identityMat D) v = v.
Proof.
move=> szv finv.
case: (mulvec_spec D D (identityMat D) v) => sz entries.
apply: (@eq_from_nth _ s0); rewrite sz // => i ltiD.
rewrite entries //.
pose f k := @smul P SP (@get P SP (@identityMat P SP D) i k) (nth (@s0 P SP) v k).
have fi : f i = nth s0 v i.
  by rewrite /f get_identityMat eqxx ltiD (exact_mul1 exact) // finv.
have f0 k : k < D -> k != i -> f k = s0.
  move=> ltkD nki; rewrite /f get_identityMat eq_sym (negbTE nki) /=.
  by rewrite (exact_mul0 exact) // finv.
have finfi : fin (f i) by rewrite fi finv.
by rewrite -/f (single_term_sum exact exact_add0r ltiD finfi f0).
Qed.

(** X18: in exact arithmetic the product of the identity matrix with a vec
    of [D] finite components is the vec, whichever of the two is written
    first. *)
Theorem mulvec_identity D (v : @vec P) :
  size v = D -> (forall i, i < D -> fin (nth s0 v i)) ->
  mulvec D D (identityMat D) v = v /\ vecmul D D v (identityMat D) = v.
Proof. by move=> szv finv; rewrite /vecmul mulvec_identity_l. Qed.

End MulVecIdentity.

(** The vec of the second test of [lu]. *)
Lemma mmul_column_xq :
  get (mmul 3 3 3 lu_a lu_a) 1 2 =
  nth s0 (mulvec 3 3 lu_a [seq get lu_a k 2 | k <- iota 0 3]) 1.
Proof. exact (@mmul_column xq xq_scalar 3 3 3 lu_a lu_a 1 2 isT isT). Defined.

Lemma mulvec_identity_xq :
  let v := [:: zq 3; zq (-2); zq 7] in
  mulvec 3 3 (identityMat 3) v = v /\ vecmul 3 3 v (identityMat 3) = v.
Proof.
apply: (mulvec_identity xq_exact xq_add0r) => //.
by do 3![case=> //].
Defined.

(** * Observers and observing pointers *)

Section ObserverList.

Import Observe.

Lemma count_addObserver (l : seq addr) obs x :
  count_mem x (addObserver l obs) = count_mem x l + (obs == x).
Proof. by rewrite /addObserver -cats1 count_cat /= addn0. Qed.

Lemma count_removeObserver (l : seq addr) obs x :
  count_mem x (removeObserver l obs).1 =
  if x == obs then 0 else count_mem x l.
Proof.
rewrite /= count_filter; case: eqP => [->|/eqP nx].
  by rewrite (@eq_count _ _ pred0) ?count_pred0 // => y /=; case: eqP.
by apply: eq_count => y /=; case: eqP => // ->; rewrite nx.
Qed.

Lemma moveObserver_cons (l : seq addr) y oldone newone :
  moveObserver (y :: l) oldone newone =
  if y == oldone then (newone :: l, true)
  else ((y :: (moveObserver l oldone newone).1),
        (moveObserver l oldone newone).2).
Proof.
rewrite /moveObserver /=; case: (y == oldone) => //=.
by rewrite eqSS; case: (index oldone l == size l).
Qed.

Lemma moveObserver_found (l1 l2 : seq addr) oldone newone :
  oldone \notin l1 ->
  moveObserver (l1 ++ oldone :: l2) oldone newone =
  (l1 ++ newone :: l2, true).
Proof.
elim: l1 => [_|y l1 IH]; first by rewrite /= moveObserver_cons eqxx.
rewrite inE negb_or eq_sym => /andP[/negbTE ny nin].
by rewrite /= moveObserver_cons ny IH.
Qed.

Lemma moveObserver_absent (l : seq addr) oldone newone :
  oldone \notin l -> moveObserver l oldone newone = (l, false).
Proof.
elim: l => [//|y l IH]; rewrite inE negb_or eq_sym => /andP[/negbTE ny nin].
by rewrite moveObserver_cons ny IH.
Qed.

Lemma split_first (l : seq addr) x :
  x \in l -> exists l1 l2, l = l1 ++ x :: l2 /\ x \notin l1.
Proof.
elim: l => // y l IH; rewrite inE; case: (x =P y) => [<- _|nxy /= /IH].
  by exists [::], l.
case=> l1 [l2 [-> nin]]; exists (y :: l1), l2; split=> //.
by rewrite inE negb_or nin andbT; apply/eqP.
Qed.

Lemma count_moveObserver (l : seq addr) oldone newone x :
  oldone \in l ->
  count_mem x (moveObserver l oldone newone).1 + (oldone == x) =
  count_mem x l + (newone == x).
Proof.
case/split_first => l1 [l2 [-> nin]]; rewrite moveObserver_found //=.
rewrite !count_cat /= -!addnA; congr (_ + _).
by rewrite addnA addnC [(newone == x) + _]addnC.
Qed.

End ObserverList.

Section ObserverListSpec.

Import Observe.

(** X19: [removeObserver] takes every entry of the observer out of a
    vector of fewer than 2^32 entries, leaves the other entries as they
    were and in their order, and returns the number of entries it took
    out. *)
Theorem removeObserver_count (l : seq addr) obs :
  (Z.of_nat (size l) < 2 ^ 32)%Z ->
  [/\ obs \notin (removeObserver l obs).1,
      subseq (removeObserver l obs).1 l,
      forall x, x != obs ->
        count_mem x (removeObserver l obs).1 = count_mem x l
    & (removeObserver l obs).2 = Z.of_nat (count_mem obs l)].
Proof.
move=> small; split.
- by rewrite /= mem_filter eqxx.
- exact: filter_subseq.
- by move=> x nx; rewrite count_removeObserver (negbTE nx).
rewrite /= size_filter.
have -> : size l - count (fun o => o != obs) l = count_mem obs l.
  by rewrite -(count_predC (pred1 obs) l) addnK.
have le : (count_mem obs l <= size l)%coq_nat by apply/leP; exact: count_size.
by rewrite Z.mod_small //; lia.
Qed.

(** X20: [moveObserver] returns whether the old observer is in the vector;
    if it is not the vector is left as it was, and if it is, its first
    entry, and only that one, becomes the new observer. *)
Theorem moveObserver_first (l : seq addr) oldone newone :
  [/\ (moveObserver l oldone newone).2 = (oldone \in l),
      oldone \notin l -> (moveObserver l oldone newone).1 = l
    & forall l1 l2, l = l1 ++ oldone :: l2 -> oldone \notin l1 ->
        (moveObserver l oldone newone).1 = l1 ++ newone :: l2].
Proof.
split.
- case in_l: (oldone \in l); last by rewrite moveObserver_absent ?in_l.
  by case/split_first: in_l => l1 [l2 [-> nin]]; rewrite moveObserver_found.
- by move=> nin; rewrite moveObserver_absent.
by move=> l1 l2 -> nin; rewrite moveObserver_found.
Qed.

(** X21: removing an observer that has just been added, and was not in the
    vector before, gives the vector back and returns 1. *)
Theorem addObserver_removeObserver (l : seq addr) obs :
  obs \notin l ->
  removeObserver (addObserver l obs) obs = (l, 1%Z).
Proof.
move=> nin; rewrite /removeObserver /addObserver filter_rcons eqxx /=.
have -> : [seq o <- l | o != obs] = l.
  by apply/all_filterP/allP => x xl; apply: contraNneq nin => <-.
by rewrite size_rcons subSnn.
Qed.

End ObserverListSpec.

Ltac addr_cases :=
  rewrite ?eqxx;
  repeat match goal with
  | |- context [@eq_op _ ?x ?y] =>
      is_var x; is_var y; case: (x =P y) => [?|?]; [subst|];
      rewrite ?eqxx; try congruence
  end.

Ltac if_cases :=
  repeat match goal with
  | |- context [if @eq_op _ ?x ?y then _ else _] =>
      case: (x =P y) => [?|?]; try congruence
  end.

Ltac heap_cases :=
  addr_cases; if_cases; repeat (case: eqP => //= ?);
  rewrite ?addn0 ?add0n //; try congruence.

Section ObservingPtr.

Import Observe.

Lemma observer_set_object h p v :
  observer_ (set_object h p v) = observer_ h.
Proof. by []. Qed.

Lemma object_set_object h p v q :
  object_ (set_object h p v) q = if q == p then v else object_ h q.
Proof. by []. Qed.

Lemma object_add_at h o obs : object_ (add_at h o obs) = object_ h.
Proof. by []. Qed.

Lemma object_remove_at h o obs : object_ (remove_at h o obs) = object_ h.
Proof. by []. Qed.

Lemma object_move_at h o oldone newone :
  object_ (move_at h o oldone newone) = object_ h.
Proof. by []. Qed.

Lemma count_add_at h o obs o' p :
  count_mem p (observer_ (add_at h o obs) o') =
  count_mem p (observer_ h o') + ((o' == o) && (obs == p)).
Proof.
rewrite /add_at /= /upd; case: eqP => [->|_]; last by rewrite addn0.
by rewrite count_addObserver.
Qed.

Lemma count_remove_at h o obs o' p :
  count_mem p (observer_ (remove_at h o obs) o') =
  if (o' == o) && (p == obs) then 0 else count_mem p (observer_ h o').
Proof.
rewrite /remove_at [observer_ _]/= /upd; case: eqP => [->|//].
by rewrite count_removeObserver.
Qed.

Lemma count_move_at h o oldone newone o' p :
  oldone \in observer_ h o ->
  count_mem p (observer_ (move_at h o oldone newone) o')
    + ((o' == o) && (oldone == p)) =
  count_mem p (observer_ h o') + ((o' == o) && (newone == p)).
Proof.
move=> in_l; rewrite /move_at [observer_ _]/= /upd; case: eqP => [->|//].
exact: count_moveObserver.
Qed.

Lemma mem_consistent h o p :
  consistent h -> (p \in observer_ h o) = (object_ h p == Some o).
Proof. by move=> cons; rewrite -has_pred1 has_count cons; case: eqP. Qed.

Lemma reset_cons h this obj :
  consistent h -> (forall o, obj = Some o -> object_ h this <> Some o) ->
  consistent (reset h this obj).
Proof.
move=> cons neq o' p; rewrite /reset.
case: obj neq => [o|] neq; case cur: (object_ h this) neq => [c|] neq.
- have {}neq : Some c <> Some o by exact: neq.
  rewrite object_add_at cur observer_set_object object_set_object.
  rewrite count_remove_at count_add_at cons object_remove_at object_add_at.
  by heap_cases.
- rewrite object_add_at cur observer_set_object object_set_object.
  rewrite count_add_at cons object_add_at.
  by heap_cases.
- rewrite observer_set_object object_set_object.
  rewrite count_remove_at cons object_remove_at.
  by heap_cases.
- rewrite observer_set_object object_set_object cons.
  by heap_cases.
Qed.

Lemma object_reset h this obj p :
  object_ (reset h this obj) p = if p == this then obj else object_ h p.
Proof.
by rewrite /reset; case: obj => [o|] /=; case: (object_ h this).
Qed.

(** X22: when every observing pointer is registered once with the object
    it points to and with no other, it is still so after one of them is
    reset to nullptr or to an object other than the one it points to, and
    only that pointer has changed. *)
Theorem reset_consistent h this obj :
  consistent h -> (forall o, obj = Some o -> object_ h this <> Some o) ->
  consistent (reset h this obj) /\
  forall p, object_ (reset h this obj) p =
            if p == this then obj else object_ h p.
Proof.
by move=> cons neq; split; [exact: reset_cons | exact: object_reset].
Qed.

Lemma observer_notify (l : seq addr) h0 :
  observer_ (foldl (fun h obs => set_object h obs None) h0 l) = observer_ h0.
Proof. by elim: l h0 => [//|x l IH] h0 /=; rewrite IH. Qed.

Lemma object_notify (l : seq addr) h0 p :
  object_ (foldl (fun h obs => set_object h obs None) h0 l) p =
  if p \in l then None else object_ h0 p.
Proof.
elim: l h0 => [//|x l IH] h0 /=; rewrite IH inE object_set_object.
by case: (p \in l); rewrite ?orbT // orbF.
Qed.

Lemma object_destroy h o p :
  object_ (destroy h o) p =
  if p \in observer_ h o then None else object_ h p.
Proof. rewrite /destroy object_notify /=. reflexivity. Qed.

Lemma observer_destroy h o o' :
  observer_ (destroy h o) o' = if o' == o then [::] else observer_ h o'.
Proof. rewrite /destroy observer_notify /= /upd. reflexivity. Qed.

(** X23: assigning to an observing pointer a pointer to the same object,
    itself for one, leaves it pointing to the object but out of the
    object's observers: the entry [addObserver] puts in is taken out by the
    [removeObserver] that follows.  When the object is destroyed the
    pointer is not told and still holds the address. *)
Theorem assign_same_object_unregisters h this other o :
  object_ h this = Some o -> object_ h other = Some o ->
  [/\ object_ (assign h this other) this = Some o,
      this \notin observer_ (assign h this other) o
    & object_ (destroy (assign h this other) o) this = Some o].
Proof.
move=> cur oth; rewrite /assign oth.
have nin : this \notin observer_ (reset h this (Some o)) o.
  rewrite /reset object_add_at cur observer_set_object.
  by rewrite /remove_at /= /upd eqxx mem_filter eqxx.
have obj : object_ (reset h this (Some o)) this = Some o.
  by rewrite object_reset eqxx.
by split=> //; rewrite object_destroy (negbTE nin).
Qed.

(** X24: when every observing pointer is registered once with the object
    it points to, the destruction of an observable sets the pointers to it,
    and no others, to nullptr, empties its vector and leaves the other
    vectors alone; the pointers are still registered as they should be. *)
Theorem destroy_notifies h o :
  consistent h ->
  [/\ consistent (destroy h o),
      observer_ (destroy h o) o = [::],
      forall o', o' != o -> observer_ (destroy h o) o' = observer_ h o'
    & forall p, object_ (destroy h o) p =
                if object_ h p == Some o then None else object_ h p].
Proof.
move=> cons.
have obj p : object_ (destroy h o) p =
             if object_ h p == Some o then None else object_ h p.
  by rewrite object_destroy mem_consistent.
split=> //.
- move=> o' p; rewrite obj observer_destroy.
  by case: (o' =P o) => [->|no] /=; last rewrite cons; heap_cases.
- by rewrite observer_destroy eqxx.
- by move=> o' /negbTE no; rewrite observer_destroy no.
Qed.

End ObservingPtr.

Section ObservingPtrMoves.

Import Observe.

Lemma mem_count (l : seq addr) p : (p \in l) = (0 < count_mem p l).
Proof. by rewrite -has_pred1 has_count. Qed.

Lemma object_swap h a b p :
  object_ (swap h a b) p =
  if p == b then object_ h a
  else if p == a then object_ h b else object_ h p.
Proof.
rewrite /swap; case ea: (object_ h a) => [oa|]; rewrite ?object_move_at;
  by case eb: (object_ h b) => [ob|];
     rewrite !object_set_object ?object_move_at ?ea ?eb.
Qed.

Lemma swap_cons h a b : consistent h -> consistent (swap h a b).
Proof.
move=> cons o' p; rewrite object_swap /swap.
case ea: (object_ h a) => [oa|]; rewrite ?object_move_at;
  case eb: (object_ h b) => [ob|]; rewrite !observer_set_object.
- have ina : a \in observer_ h oa by rewrite mem_consistent // ea.
  have inb : b \in observer_ (move_at h oa a b) ob.
    rewrite mem_count; move: (@count_move_at h oa a b ob b ina).
    rewrite cons eb !eqxx andbT.
    by case: (ob == oa); case: (a == b) => /eqP;
       rewrite ?addn0 ?addn1 ?eqSS => /eqP ->.
  move: (@count_move_at _ ob b a o' p inb).
  move: (@count_move_at h oa a b o' p ina).
  rewrite cons.
  set X := count_mem p _; set Y := count_mem p _; move: X Y => X Y.
  addr_cases; if_cases; repeat (case: eqP => /= ?); try congruence;
    rewrite -?plusE; lia.
- have ina : a \in observer_ h oa by rewrite mem_consistent // ea.
  move: (@count_move_at h oa a b o' p ina).
  rewrite cons.
  set X := count_mem p _; move: X => X.
  addr_cases; if_cases; repeat (case: eqP => /= ?); try congruence;
    rewrite -?plusE; lia.
- have inb : b \in observer_ h ob by rewrite mem_consistent // eb.
  move: (@count_move_at h ob b a o' p inb).
  rewrite cons.
  set X := count_mem p _; move: X => X.
  addr_cases; if_cases; repeat (case: eqP => /= ?); try congruence;
    rewrite -?plusE; lia.
- by rewrite cons; heap_cases.
Qed.

(** X25: [swap] exchanges what two observing pointers point to, and the
    pointers are still registered once with the object they point to; the
    two may point to the same object or be the same pointer. *)
Theorem swap_consistent h a b :
  consistent h ->
  consistent (swap h a b) /\
  forall p, object_ (swap h a b) p =
            if p == b then object_ h a
            else if p == a then object_ h b else object_ h p.
Proof. by move=> cons; split; [exact: swap_cons | exact: object_swap]. Qed.

Lemma object_move_assign h this other p :
  object_ (move_assign h this other) p =
  if p == other then None
  else if p == this then object_ h other else object_ h p.
Proof.
rewrite /move_assign object_set_object.
case: (p =P other) => // np.
set t := object_ (reset h this None) other.
have -> : object_ (if object_ (set_object (reset h this None) this t) this
                     is Some o
                   then move_at (set_object (reset h this None) this t)
                                o other this
                   else set_object (reset h this None) this t) p =
          object_ (set_object (reset h this None) this t) p.
  by case: (object_ _ this).
rewrite object_set_object /t !object_reset.
case: (p =P this) => // e; case: (other =P this) => // e'.
by case: np; rewrite e e'.
Qed.

Lemma move_assign_cons h this other :
  consistent h -> consistent (move_assign h this other).
Proof.
move=> cons o' p; rewrite object_move_assign /move_assign.
have cons1 : consistent (reset h this None) by exact: reset_cons.
move: cons1 (object_reset h this None); move: (reset h this None) => h1.
move=> cons1 obj1; rewrite observer_set_object object_set_object eqxx.
case e1: (object_ h1 other) => [o|]; last first.
  rewrite observer_set_object cons1 obj1.
  move: e1; rewrite obj1.
  by addr_cases; if_cases; repeat (case: eqP => /= ?); try congruence.
have ino : other \in observer_ (set_object h1 this (Some o)) o.
  by rewrite observer_set_object mem_consistent // e1.
move: (@count_move_at _ o other this o' p ino).
rewrite observer_set_object cons1 obj1.
move: e1; rewrite obj1.
set X := count_mem p _; move: X => X.
addr_cases; if_cases; repeat (case: eqP => /= ?); try congruence;
  rewrite -?plusE; lia.
Qed.

(** X26: move assignment gives the pointer what the other pointed to and
    leaves the other null (both are null when a pointer is moved to
    itself), and the pointers are still registered once with the object
    they point to. *)
Theorem move_assign_consistent h this other :
  consistent h ->
  consistent (move_assign h this other) /\
  forall p, object_ (move_assign h this other) p =
            if p == other then None
            else if p == this then object_ h other else object_ h p.
Proof.
by move=> cons; split; [exact: move_assign_cons | exact: object_move_assign].
Qed.

End ObservingPtrMoves.

(** The heap [two_observers] is as it should be. *)
Lemma two_observers_consistent : Observe.consistent two_observers.
Proof.
move=> o p; rewrite /two_observers /=.
case: (o =P 5) => [->|no]; first by case: p => [|[|[|p]]].
by case: ifP => // _; case: eqP => // -[e]; case: no.
Defined.

Lemma removeObserver_count_ex :
  [/\ 1 \notin (Observe.removeObserver [:: 1; 2; 1] 1).1,
      subseq (Observe.removeObserver [:: 1; 2; 1] 1).1 [:: 1; 2; 1],
      forall x, x != 1 ->
        count_mem x (Observe.removeObserver [:: 1; 2; 1] 1).1 =
        count_mem x [:: 1; 2; 1]
    & (Observe.removeObserver [:: 1; 2; 1] 1).2 =
      Z.of_nat (count_mem 1 [:: 1; 2; 1])].
Proof. exact: (@removeObserver_count [:: 1; 2; 1] 1 erefl). Defined.

Lemma addObserver_removeObserver_ex :
  Observe.removeObserver (Observe.addObserver [:: 1; 2] 3) 3 =
  ([:: 1; 2], 1%Z).
Proof. exact: (@addObserver_removeObserver [:: 1; 2] 3 isT). Defined.

Lemma reset_consistent_ex :
  Observe.consistent (Observe.reset two_observers 1 (Some 6)) /\
  forall p, Observe.object_ (Observe.reset two_observers 1 (Some 6)) p =
            if p == 1 then Some 6 else Observe.object_ two_observers p.
Proof.
apply: reset_consistent; first exact: two_observers_consistent.
by move=> o [<-].
Defined.

Lemma assign_same_object_unregisters_ex :
  [/\ Observe.object_ (Observe.assign two_observers 1 2) 1 = Some 5,
      1 \notin Observe.observer_ (Observe.assign two_observers 1 2) 5
    & Observe.object_
        (Observe.destroy (Observe.assign two_observers 1 2) 5) 1 = Some 5].
Proof.
exact: (@assign_same_object_unregisters two_observers 1 2 5 erefl erefl).
Defined.

Lemma destroy_notifies_ex :
  [/\ Observe.consistent (Observe.destroy two_observers 5),
      Observe.observer_ (Observe.destroy two_observers 5) 5 = [::],
      forall o', o' != 5 ->
        Observe.observer_ (Observe.destroy two_observers 5) o' =
        Observe.observer_ two_observers o'
    & forall p, Observe.object_ (Observe.destroy two_observers 5) p =
                if Observe.object_ two_observers p == Some 5 then None
                else Observe.object_ two_observers p].
Proof. exact: (destroy_notifies 5 two_observers_consistent). Defined.

Lemma swap_consistent_ex :
  Observe.consistent (Observe.swap two_observers 1 3) /\
  forall p, Observe.object_ (Observe.swap two_observers 1 3) p =
            if p == 3 then Observe.object_ two_observers 1
            else if p == 1 then Observe.object_ two_observers 3
                 else Observe.object_ two_observers p.
Proof. exact: (swap_consistent 1 3 two_observers_consistent). Defined.

Lemma move_assign_consistent_ex :
  Observe.consistent (Observe.move_assign two_observers 1 2) /\
  forall p, Observe.object_ (Observe.move_assign two_observers 1 2) p =
            if p == 2 then None
            else if p == 1 then Observe.object_ two_observers 2
                 else Observe.object_ two_observers p.
Proof. exact: (move_assign_consistent 1 2 two_observers_consistent). Defined.

(** * Reference counts and intrusive pointers *)

Section Counting.

Import Intrusive.

Lemma wrap_add1 z : wrap (wrap z + 1) = wrap (z + 1).
Proof. by rewrite /wrap Zplus_mod_idemp_l. Qed.

Lemma wrap_sub1 z : wrap (wrap z - 1) = wrap (z - 1).
Proof. by rewrite /wrap Zminus_mod_idemp_l. Qed.

Lemma wrap_small (n : nat) :
  (Z.of_nat n < 2 ^ 32)%Z -> wrap (Z.of_nat n) = Z.of_nat n.
Proof. by move=> small; rewrite /wrap Z.mod_small //; lia. Qed.

Lemma wrap_eq0 (n : nat) :
  (Z.of_nat n < 2 ^ 32)%Z -> (wrap (Z.of_nat n) =? 0)%Z = (n == 0).
Proof.
move=> small; rewrite wrap_small //; case: n {small} => [//|n].
by apply/Z.eqb_neq; lia.
Qed.

Lemma refs_small (l : seq (option addr)) x :
  (Z.of_nat (size l) < 2 ^ 32)%Z -> (Z.of_nat (count_mem x l) < 2 ^ 32)%Z.
Proof.
move=> small.
have /leP le : count_mem x l <= size l by exact: count_size.
lia.
Qed.

Lemma counted_relink h (l' : seq (option addr)) (a r : option addr) :
  counted h -> (Z.of_nat (size l') < 2 ^ 32)%Z ->
  (forall o, count_mem (Some o) l' + (r == Some o) =
             refs h o + (a == Some o)) ->
  (forall o, r = Some o -> 0 < refs h o) ->
  (forall o, a = Some o -> deleted h o = 0) ->
  let h1 := if a is Some o then (ref h o).1 else h in
  let h2 := if r is Some o then (unref h1 o).1 else h1 in
  counted (Heap (refcount h2) (deleted h2) l').
Proof.
move=> cnt small link held fresh h1 h2 o.
have [rc le1 del0] := cnt o.
have rc1 : refcount h1 o =
           if a == Some o then wrap (refcount h o + 1) else refcount h o.
  rewrite /h1; case: (a) => [oa|//] /=; rewrite /upd.
  case: (o =P oa) => [->|no]; first by rewrite eqxx.
  by case: eqP => // -[e]; case: no; rewrite e.
have del1 : deleted h1 o = deleted h o by rewrite /h1; case: (a).
have rc2 : refcount h2 o =
           if r == Some o then wrap (refcount h1 o - 1) else refcount h1 o.
  rewrite /h2; case: (r) => [c|//]; rewrite /unref /=.
  have -> : refcount (if (wrap (refcount h1 c - 1) =? 0)%Z
               then Heap (upd (refcount h1) c (wrap (refcount h1 c - 1)))
                      (upd (deleted h1) c (deleted h1 c).+1) (object_ h1)
               else Heap (upd (refcount h1) c (wrap (refcount h1 c - 1)))
                      (deleted h1) (object_ h1)) =
            upd (refcount h1) c (wrap (refcount h1 c - 1)).
    by case: (_ =? _)%Z.
  rewrite /upd.
  case: (o =P c) => [->|no]; first by rewrite eqxx.
  by case: eqP => // -[e]; case: no; rewrite e.
have del2 : deleted h2 o =
            if (r == Some o) && (wrap (refcount h1 o - 1) =? 0)%Z
            then (deleted h o).+1 else deleted h o.
  rewrite /h2; case: (r) => [c|//]; rewrite /unref /=.
  rewrite [Some c == _]eq_sym.
  case: (Some o =P Some c) => [[<-]|no] /=.
    by case: (_ =? _)%Z; rewrite /= /upd ?eqxx del1.
  case: (_ =? _)%Z; rewrite /= /upd ?del1 //.
  by case: eqP => // e; case: no; rewrite e.
set n' := count_mem (Some o) l'.
have small' : (Z.of_nat n' < 2 ^ 32)%Z by exact: refs_small.
have rcE : refcount h2 o = wrap (Z.of_nat n').
  rewrite rc2 rc1 rc; move: (link o); rewrite -/n' -!plusE.
  case: (r == Some o); case: (a == Some o) => /= e;
    rewrite ?wrap_add1 ?wrap_sub1 ?wrap_add1; congr wrap; lia.
rewrite /refs /= -/n'; split=> //.
- rewrite del2; case: ifP => // /andP[/eqP/held pos _].
  by case: (deleted h o) le1 del0 => [//|[|//]] _ e; rewrite e in pos.
rewrite del2; move: rc2 (link o) held fresh; rewrite rcE -/n'.
case: (r =P Some o) => [->|_ _ /=].
  move=> /= <- _ held _; rewrite wrap_eq0 //; case: eqP => // _ d1.
  by move: (held o erefl); rewrite del0.
case: (a =P Some o) => [-> _ _ fresh d1|_]; first by rewrite fresh in d1.
by rewrite !addn0 => -> _ _.
Qed.

End Counting.

Section Pointers.

Import Intrusive.

Implicit Types (l : seq (option addr)) (x v : option addr).

Lemma count_set_nth l i v x :
  i < size l ->
  count_mem x (set_nth None l i v) + (nth None l i == x) =
  count_mem x l + (v == x).
Proof.
elim: l i => [//|y l IH] [|i] /=; first by rewrite addnC addnA [RHS]addnAC.
by rewrite ltnS => /IH e; rewrite -!addnA e.
Qed.

Lemma count_remove l i x :
  i < size l ->
  count_mem x (take i l ++ drop i.+1 l) + (nth None l i == x) =
  count_mem x l.
Proof.
elim: l i => [//|y l IH] [|i] /=; first by rewrite drop0 addnC.
by rewrite ltnS => /IH e; rewrite -addnA e.
Qed.

Lemma count_new l v x :
  count_mem x (rcons l v) = count_mem x l + (v == x).
Proof. by rewrite -cats1 count_cat /= addn0. Qed.

Lemma nth_held l i o : nth None l i = Some o -> 0 < count_mem (Some o) l.
Proof.
move=> e; rewrite -has_count has_pred1 -e; apply: mem_nth.
by case: (ltnP i (size l)) => // /(nth_default None); rewrite e.
Qed.

Lemma held_fresh h o : counted h -> 0 < refs h o -> deleted h o = 0.
Proof.
move=> cnt pos; have [_ le1 del0] := cnt o.
by case: (deleted h o) le1 del0 => [//|[|//]] _ e; rewrite e in pos.
Qed.

Lemma object_unref h o : object_ (unref h o).1 = object_ h.
Proof. by rewrite /unref /=; case: (_ =? _)%Z. Qed.

Lemma relink_eq h a r :
  let h1 := if a is Some o then (ref h o).1 else h in
  let h2 := if r is Some o then (unref h1 o).1 else h1 in
  object_ h1 = object_ h /\ object_ h2 = object_ h.
Proof.
move=> h1 h2; have e1 : object_ h1 = object_ h by rewrite /h1; case: (a).
by split=> //; rewrite /h2; case: (r) => [c|//]; rewrite object_unref.
Qed.

Lemma small_set_nth l i v :
  i < size l -> size (set_nth None l i v) = size l.
Proof. by move=> lt; rewrite size_set_nth; apply/maxn_idPr. Qed.

Lemma reset_cnt h this obj :
  counted h -> (Z.of_nat (size (object_ h)) < 2 ^ 32)%Z ->
  this < size (object_ h) ->
  (forall o, obj = Some o -> deleted h o = 0) ->
  counted (reset h this obj).
Proof.
move=> cnt small lt fresh.
have [e1 e2] := relink_eq h obj (get h this).
rewrite /reset /get /set_object e1 -/(get h this) e2.
apply: (counted_relink cnt) => //.
- by rewrite small_set_nth.
- by move=> o; rewrite count_set_nth.
- by move=> o; exact: nth_held.
Qed.

Lemma get_fresh h p o : counted h -> get h p = Some o -> deleted h o = 0.
Proof. by move=> cnt /nth_held; exact: held_fresh. Qed.

(** X27: with fewer than 2^32 intrusive pointers, when the count of every
    object is the number of pointers to it and no deleted object is pointed
    to, this is still so after [reset] to nullptr or to an object that is
    not deleted, and after copy assignment; a pointer reset to the object
    it holds does not delete it. *)
Theorem reset_counted h this other obj :
  counted h -> (Z.of_nat (size (object_ h)) < 2 ^ 32)%Z ->
  this < size (object_ h) ->
  [/\ (forall o, obj = Some o -> deleted h o = 0) ->
        counted (reset h this obj),
      counted (assign h this other)
    & forall o, get h this = Some o -> deleted (reset h this (Some o)) o = 0].
Proof.
move=> cnt small lt; split; first exact: reset_cnt.
- by apply: reset_cnt => // o; exact: get_fresh.
move=> o e.
have fresh : forall c, Some o = Some c -> deleted h c = 0.
  by move=> c [<-]; exact: get_fresh e.
apply: (@get_fresh _ this); first exact: reset_cnt.
by rewrite /get /reset /set_object /= nth_set_nth /= eqxx.
Qed.

End Pointers.

Section PointerMoves.

Import Intrusive.

Lemma move_assign_cnt h this other :
  counted h -> (Z.of_nat (size (object_ h)) < 2 ^ 32)%Z ->
  this < size (object_ h) -> other < size (object_ h) ->
  counted (move_assign h this other).
Proof.
move=> cnt small lt lto.
have [_ e2] := relink_eq h None (get h this).
rewrite /move_assign /get /set_object /= -/(get h this).
move: e2 => /= e2; rewrite e2.
apply: (@counted_relink h _ None (get h this) cnt) => //.
- by rewrite !small_set_nth // small_set_nth.
- move=> o; set l := object_ h; set v := nth None l other.
  have := @count_set_nth (set_nth None l this v) other None (Some o).
  rewrite small_set_nth // => /(_ lto).
  have := @count_set_nth l this v (Some o) lt.
  have -> : nth None (set_nth None l this v) other = v.
    by rewrite nth_set_nth /=; case: eqP.
  rewrite /refs -/l /get -/l /=.
  set X := count_mem _ _; set Y := count_mem _ _; set Z := count_mem _ _.
  by rewrite -!plusE; lia.
- by move=> o; exact: nth_held.
Qed.

Lemma swap_cnt h a b :
  counted h -> (Z.of_nat (size (object_ h)) < 2 ^ 32)%Z ->
  a < size (object_ h) -> b < size (object_ h) ->
  counted (swap h a b).
Proof.
move=> cnt small lta ltb.
rewrite /swap /get /set_object /=.
apply: (@counted_relink h _ None None cnt) => //.
- by rewrite !small_set_nth // small_set_nth.
move=> o; set l := object_ h.
have := @count_set_nth (set_nth None l a (nth None l b)) b (nth None l a)
          (Some o).
rewrite small_set_nth // => /(_ ltb).
have := @count_set_nth l a (nth None l b) (Some o) lta.
have -> : nth None (set_nth None l a (nth None l b)) b = nth None l b.
  by rewrite nth_set_nth /=; case: eqP.
rewrite /refs -/l /=.
set X := count_mem _ _; set Y := count_mem _ _; set Z := count_mem _ _.
by rewrite -!plusE; lia.
Qed.

Lemma move_construct_cnt h other :
  counted h -> (Z.of_nat (size (object_ h)) + 1 < 2 ^ 32)%Z ->
  other < size (object_ h) ->
  counted (move_construct h other).
Proof.
move=> cnt small lto.
rewrite /move_construct /new_object /get /set_object /=.
set l := object_ h; set v := nth None l other.
have lto' : other < size (rcons l v) by rewrite size_rcons ltnW.
apply: (@counted_relink h _ None None cnt) => //.
- rewrite small_set_nth // size_rcons /l; lia.
move=> o.
have := @count_set_nth (rcons l v) other None (Some o) lto'.
rewrite nth_rcons lto -/v count_new /refs -/l /=.
set X := count_mem _ _; set Y := count_mem _ _.
by rewrite -!plusE; lia.
Qed.

(** X28: while there are fewer than 2^32 intrusive pointers, the one that
    move construction adds included, move assignment, move construction and
    [swap] keep the count of every object equal to the number of pointers
    to it, with no deleted object pointed to; the source of a move is left
    null. *)
Theorem moves_counted h a b :
  counted h -> (Z.of_nat (size (object_ h)) + 1 < 2 ^ 32)%Z ->
  a < size (object_ h) -> b < size (object_ h) ->
  [/\ counted (move_assign h a b) /\
        object_ (move_assign h a b) =
        set_nth None (set_nth None (object_ h) a (get h b)) b None,
      counted (move_construct h b) /\
        object_ (move_construct h b) =
        set_nth None (rcons (object_ h) (get h b)) b None
    & counted (swap h a b) /\
        object_ (swap h a b) =
        set_nth None (set_nth None (object_ h) a (get h b)) b (get h a)].
Proof.
move=> cnt small lta ltb.
have small' : (Z.of_nat (size (object_ h)) < 2 ^ 32)%Z by lia.
split; split=> //.
- exact: move_assign_cnt.
- by rewrite /move_assign /set_object /get /=; case: (nth _ _ a) => [o|//];
     rewrite object_unref.
- exact: move_construct_cnt.
- exact: swap_cnt.
Qed.

End PointerMoves.

Section PointerLifetime.

Import Intrusive.

Lemma construct_cnt h obj :
  counted h -> (Z.of_nat (size (object_ h)) + 1 < 2 ^ 32)%Z ->
  (forall o, obj = Some o -> deleted h o = 0) ->
  counted (construct h obj).
Proof.
move=> cnt small fresh.
have -> : construct h obj =
          let h1 := if obj is Some o then (ref h o).1 else h in
          Heap (refcount h1) (deleted h1) (rcons (object_ h) obj).
  by rewrite /construct /get /new_object /= nth_rcons ltnn eqxx; case: (obj).
apply: (@counted_relink h _ obj None cnt) => //.
- by rewrite size_rcons; lia.
- by move=> o; rewrite count_new addn0.
Qed.

Lemma copy_construct_some h other o :
  get h other = Some o ->
  copy_construct h other = Some (construct h (Some o)).
Proof.
by move=> e; rewrite /copy_construct /construct /get /new_object /=
                     !nth_rcons ltnn eqxx -/(get h other) e.
Qed.

(** X29: the copy constructor calls [ref] through a null pointer exactly
    when the pointer it copies is null; otherwise it, and the constructor
    from an object that is not deleted, add a pointer and, while there are
    fewer than 2^32 pointers with the new one, keep the count of every
    object equal to the number of pointers to it. *)
Theorem copy_construct_counted h other :
  counted h -> (Z.of_nat (size (object_ h)) + 1 < 2 ^ 32)%Z ->
  [/\ copy_construct h other = None <-> get h other = None,
      forall h', copy_construct h other = Some h' ->
        counted h' /\ object_ h' = rcons (object_ h) (get h other)
    & forall obj, (forall o, obj = Some o -> deleted h o = 0) ->
        counted (construct h obj) /\
        object_ (construct h obj) = rcons (object_ h) obj].
Proof.
move=> cnt small; split.
- case e: (get h other) => [o|]; first by rewrite (copy_construct_some e).
  by rewrite /copy_construct /get /new_object /= nth_rcons ltnn eqxx
             -/(get h other) e.
- case e: (get h other) => [o|]; last first.
    by rewrite /copy_construct /get /new_object /= nth_rcons ltnn eqxx
               -/(get h other) e.
  rewrite (copy_construct_some e) => h' [<-]; split.
    by apply: construct_cnt => // c [<-]; exact: get_fresh e.
  by rewrite /construct /get /new_object /= nth_rcons ltnn eqxx.
move=> obj fresh; split; first exact: construct_cnt.
by rewrite /construct /get /new_object /= nth_rcons ltnn eqxx; case: (obj).
Qed.

(** X30: while there are fewer than 2^32 intrusive pointers, the
    destructor of one keeps the count of every object equal to the number
    of pointers to it, and calls the deleter of an object exactly when the
    pointer was the only one to it. *)
Theorem destruct_counted h this :
  counted h -> (Z.of_nat (size (object_ h)) < 2 ^ 32)%Z ->
  this < size (object_ h) ->
  [/\ counted (destruct h this),
      object_ (destruct h this) =
        take this (object_ h) ++ drop this.+1 (object_ h)
    & forall o, deleted (destruct h this) o =
                deleted h o + ((get h this == Some o) && (refs h o == 1))].
Proof.
move=> cnt small lt.
have [_ e2] := relink_eq h None (get h this); move: e2 => /= e2.
split.
- rewrite /destruct e2.
  apply: (@counted_relink h _ None (get h this) cnt) => //.
  + rewrite size_cat size_take size_drop lt -plusE -minusE.
    by move/ltP: lt => lt; lia.
  + by move=> o; rewrite count_remove // addn0.
  + by move=> o; exact: nth_held.
- by rewrite /destruct e2.
move=> o; rewrite /destruct /=.
case e: (get h this) => [c|]; last by rewrite addn0.
have [rc _ _] := cnt c.
have pos : 0 < refs h c by exact: nth_held e.
rewrite /unref /= rc wrap_sub1.
have -> : (Z.of_nat (refs h c) - 1)%Z = Z.of_nat (refs h c).-1.
  by case: (refs h c) pos => // n _; rewrite -[n.+1.-1]/n; lia.
have small1 : (Z.of_nat (refs h c).-1 < 2 ^ 32)%Z.
  have : (Z.of_nat (refs h c) < 2 ^ 32)%Z by exact: refs_small.
  by case: (refs h c) pos => // n _; rewrite -[n.+1.-1]/n; lia.
rewrite (wrap_eq0 small1).
have -> : ((refs h c).-1 == 0) = (refs h c == 1).
  by case: (refs h c) pos.
rewrite [Some c == _]eq_sym.
case: (Some o =P Some c) => [[->]|no] /=.
  by case: eqP => _; rewrite /= /upd ?eqxx ?addn1 ?addn0.
rewrite addn0; case: (_ == 1) => //=; rewrite /upd.
by case: eqP => // eo; case: no; rewrite eo.
Qed.

End PointerLifetime.

(** The heap [three_pointers] is as it should be. *)
Lemma three_pointers_counted : Intrusive.counted three_pointers.
Proof.
move=> o; rewrite /three_pointers /Intrusive.refs /=.
case: (o =P 5) => [->|no]; first by [].
have -> : (Some 5 == Some o) = false by apply/eqP => -[e]; case: no.
by [].
Defined.

Lemma reset_counted_ex :
  [/\ (forall o, Some 7 = Some o -> Intrusive.deleted three_pointers o = 0) ->
        Intrusive.counted (Intrusive.reset three_pointers 0 (Some 7)),
      Intrusive.counted (Intrusive.assign three_pointers 0 2)
    & forall o, Intrusive.get three_pointers 0 = Some o ->
        Intrusive.deleted (Intrusive.reset three_pointers 0 (Some o)) o = 0].
Proof.
exact: (@reset_counted three_pointers 0 2 (Some 7) three_pointers_counted
          erefl isT).
Defined.

Lemma moves_counted_ex :
  [/\ Intrusive.counted (Intrusive.move_assign three_pointers 1 2) /\
        Intrusive.object_ (Intrusive.move_assign three_pointers 1 2) =
        set_nth None (set_nth None (Intrusive.object_ three_pointers) 1
                        (Intrusive.get three_pointers 2)) 2 None,
      Intrusive.counted (Intrusive.move_construct three_pointers 2) /\
        Intrusive.object_ (Intrusive.move_construct three_pointers 2) =
        set_nth None (rcons (Intrusive.object_ three_pointers)
                        (Intrusive.get three_pointers 2)) 2 None
    & Intrusive.counted (Intrusive.swap three_pointers 1 2) /\
        Intrusive.object_ (Intrusive.swap three_pointers 1 2) =
        set_nth None (set_nth None (Intrusive.object_ three_pointers) 1
                        (Intrusive.get three_pointers 2)) 2
                (Intrusive.get three_pointers 1)].
Proof.
exact: (@moves_counted three_pointers 1 2 three_pointers_counted erefl isT
          isT).
Defined.

Lemma copy_construct_counted_ex :
  [/\ Intrusive.copy_construct three_pointers 1 = None <->
        Intrusive.get three_pointers 1 = None,
      forall h', Intrusive.copy_construct three_pointers 1 = Some h' ->
        Intrusive.counted h' /\
        Intrusive.object_ h' =
        rcons (Intrusive.object_ three_pointers)
              (Intrusive.get three_pointers 1)
    & forall obj,
        (forall o, obj = Some o -> Intrusive.deleted three_pointers o = 0) ->
        Intrusive.counted (Intrusive.construct three_pointers obj) /\
        Intrusive.object_ (Intrusive.construct three_pointers obj) =
        rcons (Intrusive.object_ three_pointers) obj].
Proof.
exact: (@copy_construct_counted three_pointers 1 three_pointers_counted
          erefl).
Defined.

Lemma destruct_counted_ex :
  [/\ Intrusive.counted (Intrusive.destruct three_pointers 0),
      Intrusive.object_ (Intrusive.destruct three_pointers 0) =
        take 0 (Intrusive.object_ three_pointers) ++
        drop 1 (Intrusive.object_ three_pointers)
    & forall o, Intrusive.deleted (Intrusive.destruct three_pointers 0) o =
                Intrusive.deleted three_pointers o +
                ((Intrusive.get three_pointers 0 == Some o) &&
                 (Intrusive.refs three_pointers o == 1))].
Proof.
exact: (@destruct_counted three_pointers 0 three_pointers_counted erefl isT).
Defined.
